(** * audio_augmentor: the speed and adversarial-noise augmentors

    A shallow embedding of [audio_augmentor/adversarial.py] and
    [audio_augmentor/speed.py].

    Python objects are records, a configuration [dict] is a finite map from
    strings to values, and a method is a computation over the instance and
    the state of the outside world that either returns or raises.  Calls
    into the libraries the two files import (ART attacks, pydub, [random],
    the classifier adapters, the base class) go through an interface of
    library functions, so every statement below is about the glue code of
    the two files for any behaviour of those libraries. *)

From Stdlib Require Import ZArith QArith Floats List Lia Lqa.
From stdpp Require Import gmap strings.

Set Warnings "-register-all".
Close Scope Q_scope.
Open Scope string_scope.
Open Scope list_scope.

(** ** Python values and exceptions *)

(** The arithmetic of the numbers stored in a configuration.  Python floats
    are IEEE binary64 numbers ([binary64] below); [exact] is the same
    interface over the rationals, where no operation rounds or overflows. *)
Class Num := {
  num : Type;
  nzero : num;
  nadd : num -> num -> num;
  nsub : num -> num -> num;
  nmul : num -> num -> num;
  nleb : num -> num -> bool;
  nltb : num -> num -> bool
}.

Definition binary64 : Num := {|
  num := float;
  nzero := 0%float;
  nadd := PrimFloat.add;
  nsub := PrimFloat.sub;
  nmul := PrimFloat.mul;
  nleb := PrimFloat.leb;
  nltb := PrimFloat.ltb
|}.

Definition Qlt_bool (x y : Q) : bool := negb (Qle_bool y x).

Definition exact : Num := {|
  num := Q;
  nzero := 0%Q;
  nadd := Qplus;
  nsub := Qminus;
  nmul := Qmult;
  nleb := Qle_bool;
  nltb := Qlt_bool
|}.

(** A number of [exact] is a rational. *)
Definition as_Q (x : @num exact) : Q := x.

(** A number of [binary64] is a float. *)
Definition as_float (x : @num binary64) : float := x.

(** The exceptions the two files raise or let through.  [LibraryError] is
    any exception raised inside library code, named by a tag. *)
Inductive Exc :=
| KeyError (key : string)
| AssertionError (msg : string)
| TypeError
| AttributeError
| IndexError
| NotImplementedError
| LibraryError (tag : string).

Definition Result (A : Type) : Type := (Exc + A)%type.

(** A configuration value: [None], a float, a string or a nested mapping
    (the docstrings give every numeric option the type [float]). *)
Inductive Value `{Num} :=
| VNone
| VNum (x : num)
| VStr (s : string)
| VDict (d : gmap string Value).

Definition Config `{Num} : Type := gmap string Value.

(** A waveform is the array of samples the loader produced. *)
Definition Waveform `{Num} : Type := list num.

(** ** Computations that raise and change state *)

Definition M (S A : Type) : Type := S -> Result A * S.

Definition ret {S A} (a : A) : M S A := fun s => (inr a, s).

Definition raise {S A} (e : Exc) : M S A := fun s => (inl e, s).

Definition bind {S A B} (c : M S A) (k : A -> M S B) : M S B :=
  fun s =>
    match c s with
    | (inr a, s') => k a s'
    | (inl e, s') => (inl e, s')
    end.

Notation "x <- c ;; k" := (bind c (fun x => k))
  (at level 100, c at next level, right associativity).
Notation "c ;;; k" := (bind c (fun _ => k))
  (at level 100, right associativity).

Definition get {S} : M S S := fun s => (inr s, s).

Definition modify {S} (f : S -> S) : M S unit := fun s => (inr tt, f s).

(** A pure call that may raise. *)
Definition lift {S A} (r : Result A) : M S A := fun s => (r, s).

(** [d[key]]: a missing key raises [KeyError]. *)
Definition getitem `{Num} {S} (d : Config) (key : string) : M S Value :=
  match d !! key with
  | Some v => ret v
  | None => raise (KeyError key)
  end.

(** [v == s] for a string literal [s]. *)
Definition eq_str `{Num} (v : Value) (s : string) : bool :=
  match v with
  | VStr t => String.eqb t s
  | _ => false
  end.

(** [v in names] for a list of string literals. *)
Definition py_in `{Num} (v : Value) (names : list string) : bool :=
  existsb (eq_str v) names.

(** [str] of a list of plain strings, as ["{}".format] prints it. *)
Definition py_repr (s : string) : string := "'" +:+ s +:+ "'".

Fixpoint py_join (sep : string) (l : list string) : string :=
  match l with
  | [] => EmptyString
  | [s] => s
  | s :: rest => s +:+ sep +:+ py_join sep rest
  end.

Definition py_str_list (l : list string) : string :=
  "[" +:+ py_join ", " (map py_repr l) +:+ "]".

(** [assert cond, msg] *)
Definition py_assert {S} (cond : bool) (msg : string) : M S unit :=
  if cond then ret tt else raise (AssertionError msg).

(** ** The libraries behind the two files *)

(** The objects the libraries hand out.  [Ext] is the state the libraries
    keep between calls (the generator behind [random], loaded devices). *)
Class Handles := {
  Ext : Type;
  Adapter : Type;
  Classifier : Type;
  Attack : Type;
  Segment : Type
}.

(** The attributes of [BaseAugmentor] the two files read and write. *)
Record Base `{Num} `{Handles} := {
  data : option Waveform;
  sr : Z;
  augmented_audio : option Segment
}.

Definition set_augmented_audio `{Num} `{Handles} (seg : Segment) (b : Base) : Base :=
  {| data := data b; sr := sr b; augmented_audio := Some seg |}.

(** The library calls of the two files.  A call that may change the state
    of the libraries takes and returns [Ext]; each may raise.  The getters
    of an adapter and the two audio conversions, [librosa_to_pydub] and
    pydub's [speedup], are functions of their arguments. *)
Class Library `{Num} `{Handles} := {
  (* BaseAugmentor.__init__(self, *args) *)
  base_init : list Value -> Ext -> Result Base * Ext;
  (* BaseAugmentor.load(self) *)
  base_load : Base -> Ext -> Result Base * Ext;
  (* ArtRawnet2(...), ArtBTSE(...), ArtAasistSSL(...), ArtLCNN(...), by class name *)
  new_adapter : string -> Value -> Value -> Ext -> Result Adapter * Ext;
  (* artmodel.load_model(path) *)
  load_model : Adapter -> Value -> Ext -> Result Adapter * Ext;
  (* artmodel.get_art() *)
  get_art : Adapter -> Classifier;
  (* the input length the adapter cuts audio to *)
  window : Adapter -> positive;
  (* the ART attack classes, by name *)
  new_attack : string -> Classifier -> gmap string Value -> Ext -> Result Attack * Ext;
  (* attack.generate(x=..., y=...): a batch of rows *)
  generate : Attack -> Waveform -> option bool -> Ext -> Result (list Waveform) * Ext;
  (* random.random(): the next draw of the generator *)
  random : Ext -> num * Ext;
  (* utils.librosa_to_pydub(audio, sr=...) *)
  librosa_to_pydub : Waveform -> Z -> Result Segment;
  (* AudioSegment.speedup(playback_speed) *)
  speedup : Segment -> num -> Result Segment
}.

(** What the code did to the outside, oldest first. *)
Inductive Event :=
| EvBaseInit
| EvBaseLoad
| EvAssertModel
| EvAssertAdv
| EvNewAdapter (class : string)
| EvLoadModel (class : string)
| EvNewAttack (class : string)
| EvGenerate (labelled : bool)
| EvRandom.

Record World `{Handles} := {
  trace : list Event;
  ext : Ext
}.

Definition log `{Handles} (e : Event) : M World unit :=
  modify (fun w => {| trace := trace w ++ [e]; ext := ext w |}).

(** A library call, recorded in the trace. *)
Definition call `{Handles} {A} (e : Event) (f : Ext -> Result A * Ext) : M World A :=
  fun w =>
    let (r, x) := f (ext w) in
    (r, {| trace := trace w ++ [e]; ext := x |}).

(** A method runs over its instance and the world. *)
Definition on_world {Self W A} (c : M W A) : M (Self * W) A :=
  fun s =>
    let (r, w) := c (snd s) in (r, (fst s, w)).

Definition self {Self W} : M (Self * W) Self := fun s => (inr (fst s), s).

Definition set_self {Self W} (f : Self -> Self) : M (Self * W) unit :=
  modify (fun s => (f (fst s), snd s)).

(** [random.uniform(a, b)] of CPython: [a + (b - a) * self.random()];
    operands that are not numbers raise [TypeError]. *)
Definition random_uniform `{Library} (a b : Value) : M World num :=
  match a, b with
  | VNum x, VNum y =>
      u <- call EvRandom (fun e => let (u, e') := random e in (inr u, e')) ;;
      ret (nadd x (nmul (nsub y x) u))
  | _, _ => raise TypeError
  end.

(** ** Chunking *)

Section Chunking.
Context `{Num}.

(** Modelled from the spec: the fixed-size windows of [get_chunk], in
    order; the last one may be shorter. *)
Fixpoint windows (n fuel : nat) (l : Waveform) : list Waveform :=
  match fuel, l with
  | 0%nat, _ => []
  | _, [] => []
  | S fuel', _ => firstn n l :: windows n fuel' (skipn n l)
  end.

(** Modelled from the spec: a window filled up to the fixed length (the
    spec does not say with what; silence is used). *)
Definition pad (n : nat) (c : Waveform) : Waveform :=
  c ++ repeat nzero (n - length c).

(** Modelled from the spec: [get_chunk] of the classifier adapters
    (audio_augmentor/artmodel/, not among the sources).  The audio is split
    into fixed-size windows of the adapter's input length; the final,
    possibly shorter, window is filled up to that length with silence, and
    its length before filling is returned as the remainder size. *)
Definition get_chunk (n : positive) (audio : Waveform) : list Waveform * nat :=
  let ws := windows (Pos.to_nat n) (length audio) audio in
  (map (pad (Pos.to_nat n)) ws, length (List.last ws [])).

(** Modelled from the spec: [chunk_to_audio] of the classifier adapters
    (audio_augmentor/artmodel/, not among the sources).  The per-chunk
    results are joined into one waveform, the last one cut to the recorded
    remainder size. *)
Definition chunk_to_audio (chunks : list Waveform) (last_size : nat) : Waveform :=
  concat (List.removelast chunks) ++ firstn last_size (List.last chunks []).

End Chunking.

(** ** adversarial.py *)

Module AdversarialNoiseAugmentor.
Section Code.
Context `{Library}.

Definition SUPPORTED_CM : list string := ["rawnet2"; "btse"; "aasistssl"; "lcnn"].

Definition SUPPORTED_ADV : list string :=
  ["ProjectedGradientDescent"; "FastGradientMethod"; "AutoProjectedGradientDescent"].

Record Self := {
  base : Base;
  model_name : Value;
  model_pretrained : Value;
  device : Value;
  adv_method : Value;
  y_true : option bool;
  artmodel : Adapter;
  adv_class : Attack
}.

Definition set_base (f : Base -> Base) (s : Self) : Self :=
  {| base := f (base s);
     model_name := model_name s;
     model_pretrained := model_pretrained s;
     device := device s;
     adv_method := adv_method s;
     y_true := y_true s;
     artmodel := artmodel s;
     adv_class := adv_class s |}.

(** One branch of the model chain: [Class(key=config[key], device=...)]
    followed by [load_model(model_pretrained)]. *)
Definition load_adapter (class key : string) (config : Config)
    (device model_pretrained : Value) : M World Adapter :=
  arg <- getitem config key ;;
  a <- call (EvNewAdapter class) (new_adapter class arg device) ;;
  call (EvLoadModel class) (load_model a model_pretrained).

(** [if self.model_name == name: self.artmodel = ...] *)
Definition model_branch (name class key : string) (config : Config)
    (model_name device model_pretrained : Value)
    (artmodel : option Adapter) : M World (option Adapter) :=
  if eq_str model_name name
  then a <- load_adapter class key config device model_pretrained ;; ret (Some a)
  else ret artmodel.

(** [globals()[self.adv_method]]: the attack classes the module imports
    (reached only after the assertion on [adv_method], so with one of the
    supported names). *)
Definition globals (name : Value) : M World string :=
  match name with
  | VStr s => if py_in name SUPPORTED_ADV then ret s else raise (KeyError s)
  | _ => raise TypeError
  end.

Definition __init__ (config : Config) (y : option bool) : M World Self :=
  b <- call EvBaseInit (base_init [VDict config]) ;;
  model_name <- getitem config "model_name" ;;
  model_pretrained <- getitem config "model_pretrained" ;;
  device <- getitem config "device" ;;
  adv_method <- getitem config "adv_method" ;;
  log EvAssertModel ;;;
  py_assert (py_in model_name SUPPORTED_CM)
    ("model_name must be one of " +:+ py_str_list SUPPORTED_CM) ;;;
  m <- model_branch "rawnet2" "ArtRawnet2" "config_path" config
         model_name device model_pretrained None ;;
  m <- model_branch "btse" "ArtBTSE" "config_path" config
         model_name device model_pretrained m ;;
  m <- model_branch "aasistssl" "ArtAasistSSL" "ssl_model" config
         model_name device model_pretrained m ;;
  m <- model_branch "lcnn" "ArtLCNN" "config_path" config
         model_name device model_pretrained m ;;
  log EvAssertAdv ;;;
  py_assert (py_in adv_method SUPPORTED_ADV)
    ("adv_method must be one of " +:+ py_str_list SUPPORTED_ADV) ;;;
  class <- globals adv_method ;;
  a <- match m with Some a => ret a | None => raise AttributeError end ;;
  adv_config <- getitem config "adv_config" ;;
  kwargs <- match adv_config with VDict d => ret d | _ => raise TypeError end ;;
  atk <- call (EvNewAttack class) (new_attack class (get_art a) kwargs) ;;
  ret {| base := b;
         model_name := model_name;
         model_pretrained := model_pretrained;
         device := device;
         adv_method := adv_method;
         y_true := y;
         artmodel := a;
         adv_class := atk |}.

Definition labelled (y : option bool) : bool :=
  match y with Some _ => true | None => false end.

(** [self.adv_class.generate(x=chunk.cpu().numpy(), y=...)[0, :]]: the
    first row of the batch the attack returns for the chunk's samples. *)
Definition generate_row0 (atk : Attack) (x : Waveform) (y : option bool) : M World Waveform :=
  rows <- call (EvGenerate (labelled y)) (generate atk x y) ;;
  match rows with
  | row :: _ => ret row
  | [] => raise IndexError
  end.

(** The loop over the chunks: with a label, the labelled result is bound
    to [temp] first; the unlabelled call then binds [temp] again, and that
    value is appended. *)
Fixpoint attack_chunks (atk : Attack) (y : option bool)
    (chunks adv_res : list Waveform) : M World (list Waveform) :=
  match chunks with
  | [] => ret adv_res
  | chunk :: rest =>
      match y with
      | Some l => temp <- generate_row0 atk chunk (Some l) ;; ret tt
      | None => ret tt
      end ;;;
      temp <- generate_row0 atk chunk None ;;
      attack_chunks atk y rest (adv_res ++ [temp])
  end.

Definition transform : M (Self * World) unit :=
  s <- self ;;
  let classifier_art := get_art (artmodel s) in
  audio <- match data (base s) with
           | Some d => ret d
           | None => raise (LibraryError "get_chunk")
           end ;;
  let '(chunks, last_size) := get_chunk (window (artmodel s)) audio in
  adv_res <- on_world (attack_chunks (adv_class s) (y_true s) chunks []) ;;
  let audio := chunk_to_audio adv_res last_size in
  seg <- lift (librosa_to_pydub audio (sr (base s))) ;;
  set_self (set_base (set_augmented_audio seg)).

Definition transform_load (input_dir batch_size : Value) : M (Self * World) unit :=
  raise NotImplementedError.

End Code.
End AdversarialNoiseAugmentor.

(** ** speed.py *)

Module SpeedAugmentor.
Section Code.
Context `{Library}.

Record Self := {
  base : Base;
  speed_factor : num;
  audio_data : option Segment
}.

Definition set_base (f : Base -> Base) (s : Self) : Self :=
  {| base := f (base s); speed_factor := speed_factor s; audio_data := audio_data s |}.

Definition set_audio_data (a : option Segment) (s : Self) : Self :=
  {| base := base s; speed_factor := speed_factor s; audio_data := a |}.

Definition __init__ (input_path : Value) (config : Config) : M World Self :=
  b <- call EvBaseInit (base_init [input_path; VDict config]) ;;
  lo <- getitem config "min_speed_factor" ;;
  hi <- getitem config "max_speed_factor" ;;
  factor <- random_uniform lo hi ;;
  ret {| base := b; speed_factor := factor; audio_data := None |}.

Definition load : M (Self * World) unit :=
  s <- self ;;
  b <- on_world (call EvBaseLoad (base_load (base s))) ;;
  set_self (set_base (fun _ => b)) ;;;
  audio <- match data b with
           | Some d => ret d
           | None => raise (LibraryError "librosa_to_pydub")
           end ;;
  seg <- lift (librosa_to_pydub audio (sr b)) ;;
  set_self (set_audio_data (Some seg)).

Definition transform : M (Self * World) unit :=
  s <- self ;;
  seg <- match audio_data s with
         | Some a => ret a
         | None => raise AttributeError
         end ;;
  out <- lift (speedup seg (speed_factor s)) ;;
  set_self (set_base (set_augmented_audio out)).

End Code.
End SpeedAugmentor.

(** ** A small concrete library

    Used to run the code on explicit inputs: adapters, classifiers and
    attacks are their class names, an audio segment is its samples, the
    library state counts the calls that changed it, and the generator
    always draws [u]. *)

Definition toy_handles (N : Num) : Handles := {|
  Ext := nat;
  Adapter := string;
  Classifier := string;
  Attack := string;
  Segment := list (@num N)
|}.

Definition toy_base (N : Num) : @Base N (toy_handles N) :=
  {| data := None; sr := 16000; augmented_audio := None |}.

Definition toy_generate (N : Num) (u : @num N) (x : list (@num N)) (y : option bool)
  : list (list (@num N)) :=
  match y with
  | Some _ => [map (nadd u) x]
  | None => [x]
  end.

Definition toy_library (N : Num) (u : @num N) : @Library N (toy_handles N) := {|
  base_init := fun _ e => (inr (toy_base N), e);
  base_load := fun b e => (inr b, e);
  new_adapter := fun class _ _ e => (inr class, S e);
  load_model := fun a _ e => (inr a, S e);
  get_art := fun a => a;
  window := fun _ => 4%positive;
  new_attack := fun class _ _ e => (inr class, S e);
  generate := fun _ x y e => (inr (toy_generate N u x y), S e);
  random := fun e => (u, S e);
  librosa_to_pydub := fun a _ => inr a;
  speedup := fun seg f => inr (map (nmul f) seg)
|}.

Definition toy_world_at (N : Num) (events : list Event) (calls : nat)
  : @World (toy_handles N) :=
  @Build_World (toy_handles N) events calls.

Definition toy_world (N : Num) : @World (toy_handles N) := toy_world_at N [] 0.

(** Configurations over the rationals for the adversarial augmentor. *)
Definition adv_config_of (model attack : string) : @Config exact :=
  <["model_name" := VStr model]>
    (<["model_pretrained" := VStr "pretrained/model.pth"]>
       (<["device" := VStr "cpu"]>
          (<["adv_method" := VStr attack]>
             (<["adv_config" := VDict ∅]> ∅)))).



Definition cfg_unknown_attack : @Config exact :=
  <["config_path" := VStr "configs/rawnet2.yaml"]>
    (adv_config_of "rawnet2" "CarliniWagner").

Definition cfg_unknown_attack_no_path : @Config exact :=
  adv_config_of "rawnet2" "CarliniWagner".

Definition cfg_lcnn_no_path : @Config exact :=
  adv_config_of "lcnn" "DeepFool".



Definition half : Q := (1 # 2)%Q.

(** A loaded instance of the adversarial augmentor over the toy library:
    six samples, cut by the toy adapter into windows of four. *)
Definition toy_audio : @Waveform exact := [1; 2; 3; 4; 5; 6]%Q.

Definition toy_loaded_base : @Base exact (toy_handles exact) :=
  {| data := Some toy_audio; sr := 16000; augmented_audio := None |}.

Definition toy_adv_self (y : option bool)
  : @AdversarialNoiseAugmentor.Self exact (toy_handles exact) :=
  {| AdversarialNoiseAugmentor.base := toy_loaded_base;
     AdversarialNoiseAugmentor.model_name := VStr "rawnet2";
     AdversarialNoiseAugmentor.model_pretrained := VStr "pretrained/model.pth";
     AdversarialNoiseAugmentor.device := VStr "cpu";
     AdversarialNoiseAugmentor.adv_method := VStr "FastGradientMethod";
     AdversarialNoiseAugmentor.y_true := y;
     AdversarialNoiseAugmentor.artmodel := "ArtRawnet2";
     AdversarialNoiseAugmentor.adv_class := "FastGradientMethod" |}.

(** A loaded instance of the speed augmentor over the toy library. *)
Definition toy_speed_self : @SpeedAugmentor.Self exact (toy_handles exact) :=
  {| SpeedAugmentor.base := toy_loaded_base;
     SpeedAugmentor.speed_factor := (3 # 2)%Q;
     SpeedAugmentor.audio_data := Some toy_audio |}.

(** Speed bounds at the two ends of the binary64 range, and ordinary ones
    over the rationals. *)
Definition float_max : float := 0x1.fffffffffffffp+1023%float.

Definition cfg_extreme_bounds : @Config binary64 :=
  <["min_speed_factor" := @VNum binary64 (- float_max)%float]>
    (<["max_speed_factor" := @VNum binary64 float_max]> ∅).

Definition cfg_speed : @Config exact :=
  <["min_speed_factor" := @VNum exact (9 # 10)%Q]>
    (<["max_speed_factor" := @VNum exact (11 # 10)%Q]> ∅).

(** The code run over the toy library from the empty world. *)
Definition toyL : @Library exact (toy_handles exact) := toy_library exact half.

Definition toyL64 : @Library binary64 (toy_handles binary64) :=
  toy_library binary64 0.5%float.

Definition toy_adv_init (config : @Config exact) (y : option bool) :=
  @AdversarialNoiseAugmentor.__init__ exact (toy_handles exact) toyL config y
    (toy_world exact).

Definition toy_adv_transform (y : option bool) :=
  @AdversarialNoiseAugmentor.transform exact (toy_handles exact) toyL
    (toy_adv_self y, toy_world exact).

Definition toy_speed_init (config : @Config exact) :=
  @SpeedAugmentor.__init__ exact (toy_handles exact) toyL (VStr "clip.wav") config
    (toy_world exact).

Definition toy_speed_init64 (config : @Config binary64) :=
  @SpeedAugmentor.__init__ binary64 (toy_handles binary64) toyL64
    (@VStr binary64 "clip.wav") config (toy_world binary64).

Definition toy_speed_transform_at
    (st : @SpeedAugmentor.Self exact (toy_handles exact) * @World (toy_handles exact)) :=
  @SpeedAugmentor.transform exact (toy_handles exact) toyL st.

Definition toy_speed_transform :=
  toy_speed_transform_at (toy_speed_self, toy_world exact).

(** ** Binary64 values

    Vocabulary for the arithmetic of [random.uniform] over IEEE numbers, in
    terms of the specification floats of the Standard Library
    ([SpecFloat]), for a format of precision [prec] and exponent bound
    [emax] (53 and 1024 for binary64). *)

Section Format.
Variables prec emax : Z.
Local Open Scope Z_scope.

(** [m / 2 ^ n] rounded to the nearest integer, ties to even. *)
Definition nearest_even (m n : Z) : Z :=
  let q := m / 2 ^ n in
  let r := m mod 2 ^ n in
  if 2 * r <? 2 ^ n then q
  else if 2 ^ n <? 2 * r then q + 1
  else if Z.even q then q else q + 1.

(** The float with mantissa [q] (at most [2 ^ prec]) and exponent [E]:
    zero, a finite float, or an infinity when the exponent is out of
    range. *)
Definition round_result (sx : bool) (q E : Z) : spec_float :=
  if q =? 0 then S754_zero sx
  else if q =? 2 ^ prec then
    if E + 1 <=? emax - prec then S754_finite sx (Z.to_pos (2 ^ (prec - 1))) (E + 1)
    else S754_infinity sx
  else if E <=? emax - prec then S754_finite sx (Z.to_pos q) E
  else S754_infinity sx.

(** Values are counted in units of [2 ^ unit_exp]: every float, and every
    sum and product of two floats, is a whole number of units. *)
Definition unit_exp : Z := 2 * SpecFloat.emin prec emax.

Definition units_of (m e : Z) : Z := m * 2 ^ (e - unit_exp).

(** Mantissa and exponent of a float of the format. *)
Definition canonical (m e : Z) : Prop :=
  SpecFloat.emin prec emax <= e /\ 0 < m < 2 ^ prec /\
  (SpecFloat.emin prec emax < e -> 2 ^ (prec - 1) <= m).

(** Zero or finite: neither an infinity nor a NaN. *)
Definition SFfinite (x : spec_float) : bool :=
  match x with S754_zero _ | S754_finite _ _ _ => true | _ => false end.

(** The value of a float, in units. *)
Definition SFunits (x : spec_float) : Z :=
  match x with S754_finite s m e => cond_Zopp s (units_of (Zpos m) e) | _ => 0 end.

Definition SFmag (x : spec_float) : Z := Z.abs (SFunits x).

(** [R] is the exact value [X > 0] (in units) with sign [s], rounded to the
    format from a mantissa with exponent [lo] at least. *)
Definition rounds_to (s : bool) (X : Z) (R : spec_float) (lo : Z) : Prop :=
  exists m e n,
    0 < m /\ unit_exp <= e /\ lo <= e /\ 0 <= n /\
    e + n = SpecFloat.fexp prec emax (Zdigits2 m + e) /\
    X = units_of m e /\ R = round_result s (nearest_even m n) (e + n).

End Format.

(** ** Vocabulary of the statements *)

(** The adapter class and the configuration key each supported model name
    selects in the constructor's chain of [if]s. *)
Definition adapter_class (name : string) : string :=
  if String.eqb name "rawnet2" then "ArtRawnet2"
  else if String.eqb name "btse" then "ArtBTSE"
  else if String.eqb name "aasistssl" then "ArtAasistSSL"
  else "ArtLCNN".

Definition adapter_key (name : string) : string :=
  if String.eqb name "aasistssl" then "ssl_model" else "config_path".

Definition is_new_adapter (e : Event) : bool :=
  match e with EvNewAdapter _ => true | _ => false end.

Definition is_new_attack (e : Event) : bool :=
  match e with EvNewAttack _ => true | _ => false end.


Definition is_random (e : Event) : bool :=
  match e with EvRandom => true | _ => false end.

(** [triple ok c Q]: from any world, [c] adds only events that satisfy
    [ok] to the trace, and a value it returns satisfies [Q].  With
    [Q := fun _ => False] the computation always raises. *)
Definition triple `{Handles} {A} (ok : Event -> bool) (c : M World A) (Q : A -> Prop) : Prop :=
  forall w, exists evs,
    trace (snd (c w)) = trace w ++ evs /\
    forallb ok evs = true /\
    forall a, fst (c w) = inr a -> Q a.

(** The calls of [generate] one pass of the loop makes on a chunk. *)
Definition generate_calls (y : option bool) : list Event :=
  match y with
  | Some _ => [EvGenerate true; EvGenerate false]
  | None => [EvGenerate false]
  end.

(** The instance with another label. *)
Definition with_y_true `{Library} (y : option bool)
    (s : AdversarialNoiseAugmentor.Self) : AdversarialNoiseAugmentor.Self :=
  {| AdversarialNoiseAugmentor.base := AdversarialNoiseAugmentor.base s;
     AdversarialNoiseAugmentor.model_name := AdversarialNoiseAugmentor.model_name s;
     AdversarialNoiseAugmentor.model_pretrained := AdversarialNoiseAugmentor.model_pretrained s;
     AdversarialNoiseAugmentor.device := AdversarialNoiseAugmentor.device s;
     AdversarialNoiseAugmentor.adv_method := AdversarialNoiseAugmentor.adv_method s;
     AdversarialNoiseAugmentor.y_true := y;
     AdversarialNoiseAugmentor.artmodel := AdversarialNoiseAugmentor.artmodel s;
     AdversarialNoiseAugmentor.adv_class := AdversarialNoiseAugmentor.adv_class s |}.

(** The outcome of a computation with its value mapped. *)
Definition map_outcome {S A B} (f : A -> B) (r : Result A * S) : Result B * S :=
  match r with
  | (inr a, s) => (inr (f a), s)
  | (inl e, s) => (inl e, s)
  end.

(** A supported configuration over the rationals. *)
Definition cfg_supported : @Config exact :=
  <["config_path" := VStr "configs/rawnet2.yaml"]>
    (adv_config_of "rawnet2" "FastGradientMethod").

(** A supported configuration without ["adv_config"], and speed bounds in
    the wrong order. *)
Definition cfg_no_adv_config : @Config exact :=
  <["config_path" := VStr "configs/rawnet2.yaml"]>
    (<["model_name" := VStr "rawnet2"]>
       (<["model_pretrained" := VStr "pretrained/model.pth"]>
          (<["device" := VStr "cpu"]>
             (<["adv_method" := VStr "FastGradientMethod"]> ∅)))).

(** Speed bounds 0.9 and 1.1 as binary64 numbers, in both orders. *)
Definition cfg_speed64 : @Config binary64 :=
  <["min_speed_factor" := @VNum binary64 0x1.ccccccccccccdp-1%float]>
    (<["max_speed_factor" := @VNum binary64 0x1.199999999999ap+0%float]> ∅).

Definition cfg_speed_reversed64 : @Config binary64 :=
  <["min_speed_factor" := @VNum binary64 0x1.199999999999ap+0%float]>
    (<["max_speed_factor" := @VNum binary64 0x1.ccccccccccccdp-1%float]> ∅).

(** The toy library with an adapter constructor that raises, and with a
    conversion to a segment that raises. *)
Definition toyL_no_adapter : @Library exact (toy_handles exact) := {|
  base_init := @base_init _ _ toyL;
  base_load := @base_load _ _ toyL;
  new_adapter := fun _ _ _ e => (inl (LibraryError "FileNotFoundError"), S e);
  load_model := @load_model _ _ toyL;
  get_art := @get_art _ _ toyL;
  window := @window _ _ toyL;
  new_attack := @new_attack _ _ toyL;
  generate := @generate _ _ toyL;
  random := @random _ _ toyL;
  librosa_to_pydub := @librosa_to_pydub _ _ toyL;
  speedup := @speedup _ _ toyL
|}.

Definition toyL_no_conversion : @Library exact (toy_handles exact) := {|
  base_init := @base_init _ _ toyL;
  base_load := @base_load _ _ toyL;
  new_adapter := @new_adapter _ _ toyL;
  load_model := @load_model _ _ toyL;
  get_art := @get_art _ _ toyL;
  window := @window _ _ toyL;
  new_attack := @new_attack _ _ toyL;
  generate := @generate _ _ toyL;
  random := @random _ _ toyL;
  librosa_to_pydub := fun _ _ => inl (LibraryError "CouldntEncodeError");
  speedup := @speedup _ _ toyL
|}.

(** The instance the constructor returns over the toy library for
    [cfg_supported] and no label. *)
Definition toy_fresh_adv_self
  : @AdversarialNoiseAugmentor.Self exact (toy_handles exact) :=
  {| AdversarialNoiseAugmentor.base := toy_base exact;
     AdversarialNoiseAugmentor.model_name := VStr "rawnet2";
     AdversarialNoiseAugmentor.model_pretrained := VStr "pretrained/model.pth";
     AdversarialNoiseAugmentor.device := VStr "cpu";
     AdversarialNoiseAugmentor.adv_method := VStr "FastGradientMethod";
     AdversarialNoiseAugmentor.y_true := None;
     AdversarialNoiseAugmentor.artmodel := "ArtRawnet2";
     AdversarialNoiseAugmentor.adv_class := "FastGradientMethod" |}.

(** The instance the speed constructor returns over the toy library for
    [cfg_speed]. *)
Definition toy_fresh_speed_self : @SpeedAugmentor.Self exact (toy_handles exact) :=
  {| SpeedAugmentor.base := toy_base exact;
     SpeedAugmentor.speed_factor := (2000 # 2000)%Q;
     SpeedAugmentor.audio_data := None |}.

(** The toy audio sped up by 3/2 in the toy library. *)
Definition toy_sped_up : @Segment (toy_handles exact) :=
  [3 # 2; 6 # 2; 9 # 2; 12 # 2; 15 # 2; 18 # 2]%Q.

(** * Properties *)

(** ** Running a computation step by step *)

Lemma bind_inr {S A B} (c : M S A) (k : A -> M S B) s a s' :
  c s = (inr a, s') -> bind c k s = k a s'.
Proof. intros E. unfold bind. now rewrite E. Qed.

Lemma bind_inl {S A B} (c : M S A) (k : A -> M S B) s e s' :
  c s = (inl e, s') -> bind c k s = (inl e, s').
Proof. intros E. unfold bind. now rewrite E. Qed.

Lemma bind_inv {S A B} (c : M S A) (k : A -> M S B) s b s' :
  bind c k s = (inr b, s') ->
  exists a s1, c s = (inr a, s1) /\ k a s1 = (inr b, s').
Proof.
  unfold bind. destruct (c s) as [[e|a] s1]; [discriminate |].
  intros E. now exists a, s1.
Qed.

Lemma getitem_some `{Num} {S} (d : Config) key v (s : S) :
  d !! key = Some v -> getitem d key s = (inr v, s).
Proof. intros E. unfold getitem. now rewrite E. Qed.

Lemma getitem_none `{Num} {S} (d : Config) key (s : S) :
  d !! key = None -> getitem d key s = (inl (KeyError key), s).
Proof. intros E. unfold getitem. now rewrite E. Qed.

Lemma call_eq `{Handles} {A} ev (f : Ext -> Result A * Ext) w r x :
  f (ext w) = (r, x) ->
  call ev f w = (r, {| trace := trace w ++ [ev]; ext := x |}).
Proof. intros E. unfold call. now rewrite E. Qed.

Lemma log_eq `{Handles} ev w :
  log ev w = (inr tt, {| trace := trace w ++ [ev]; ext := ext w |}).
Proof. reflexivity. Qed.

Lemma py_assert_ok {S} cond msg (s : S) :
  cond = true -> py_assert cond msg s = (inr tt, s).
Proof. now intros ->. Qed.

Lemma py_assert_fail {S} cond msg (s : S) :
  cond = false -> py_assert cond msg s = (inl (AssertionError msg), s).
Proof. now intros ->. Qed.

Lemma app_trace {A} (l : list A) a b : (l ++ [a]) ++ b = l ++ a :: b.
Proof. now rewrite <- app_assoc. Qed.

(** The messages of the two assertions, as Python prints them. *)
Lemma model_name_message :
  "model_name must be one of " +:+ py_str_list AdversarialNoiseAugmentor.SUPPORTED_CM
  = "model_name must be one of ['rawnet2', 'btse', 'aasistssl', 'lcnn']".
Proof. reflexivity. Qed.

Lemma adv_method_message :
  "adv_method must be one of " +:+ py_str_list AdversarialNoiseAugmentor.SUPPORTED_ADV
  = "adv_method must be one of ['ProjectedGradientDescent', 'FastGradientMethod', 'AutoProjectedGradientDescent']".
Proof. reflexivity. Qed.

(** ** Events and results of composed computations *)

Section Triples.
Context `{Handles}.
Variable ok : Event -> bool.

Lemma triple_ret {A} (a : A) (Q : A -> Prop) : Q a -> triple ok (ret a) Q.
Proof.
  intros HQ w. exists []. cbn. rewrite app_nil_r.
  repeat split; auto. intros a' E. cbn in E. injection E as <-. exact HQ.
Qed.

Lemma triple_raise {A} e (Q : A -> Prop) : triple ok (raise e) Q.
Proof.
  intros w. exists []. cbn. rewrite app_nil_r.
  repeat split; auto. intros a' E. discriminate E.
Qed.

Lemma triple_bind {A B} (c : M World A) (k : A -> M World B) Q R :
  triple ok c Q -> (forall a, Q a -> triple ok (k a) R) -> triple ok (bind c k) R.
Proof.
  intros Hc Hk w. destruct (Hc w) as (evs & Ht & Hok & HQ).
  unfold bind. destruct (c w) as [[e|a] w'] eqn:E; cbn in *.
  - exists evs. repeat split; auto. intros a E'. discriminate E'.
  - destruct (Hk a (HQ a eq_refl) w') as (evs' & Ht' & Hok' & HR).
    exists (evs ++ evs'). rewrite Ht', Ht, app_assoc, forallb_app, Hok, Hok'.
    repeat split; auto.
Qed.

Lemma triple_weaken {A} (c : M World A) (Q R : A -> Prop) :
  triple ok c Q -> (forall a, Q a -> R a) -> triple ok c R.
Proof.
  intros Hc HQR w. destruct (Hc w) as (evs & Ht & Hok & HQ).
  exists evs. repeat split; auto.
Qed.

Lemma triple_call {A} ev (f : Ext -> Result A * Ext) :
  ok ev = true -> triple ok (call ev f) (fun _ => True).
Proof.
  intros Hev w. exists [ev]. unfold call. destruct (f (ext w)) as [r x]. cbn.
  rewrite Hev. repeat split; auto.
Qed.

Lemma triple_log ev : ok ev = true -> triple ok (log ev) (fun _ => True).
Proof.
  intros Hev w. exists [ev]. cbn. rewrite Hev. repeat split; auto.
Qed.

Lemma triple_assert cond msg : triple ok (py_assert cond msg) (fun _ => cond = true).
Proof.
  destruct cond; cbn.
  - now apply triple_ret.
  - apply triple_raise.
Qed.

Lemma triple_getitem `{!Num} (d : Config) key :
  triple ok (getitem d key) (fun v => d !! key = Some v).
Proof.
  unfold getitem. destruct (d !! key) as [v|].
  - now apply triple_ret.
  - apply triple_raise.
Qed.

(** A computation that always raises: its outcome and its events. *)
Lemma triple_fails {A} (c : M World A) w :
  triple ok c (fun _ => False) ->
  exists e evs, fst (c w) = inl e /\ trace (snd (c w)) = trace w ++ evs /\ forallb ok evs = true.
Proof.
  intros Hc. destruct (Hc w) as (evs & Ht & Hok & HQ).
  destruct (fst (c w)) as [e|a] eqn:E.
  - now exists e, evs.
  - destruct (HQ a eq_refl).
Qed.

End Triples.

Ltac run_call H :=
  match goal with
  | |- context [bind (call ?ev ?f) ?k ?w] =>
      first [ rewrite (bind_inr (call ev f) k w _ _ (call_eq ev f w _ _ H))
            | rewrite (bind_inl (call ev f) k w _ _ (call_eq ev f w _ _ H)) ]
  end.

Ltac run_get H :=
  first [ rewrite (bind_inr _ _ _ _ _ (getitem_some _ _ _ _ H))
        | rewrite (bind_inl _ _ _ _ _ (getitem_none _ _ _ H)) ].

Ltac run_log := rewrite (bind_inr _ _ _ _ _ (log_eq _ _)); cbn [trace ext].

Ltac run_assert H :=
  first [ rewrite (bind_inr _ _ _ _ _ (py_assert_ok _ _ _ H))
        | rewrite (bind_inl _ _ _ _ _ (py_assert_fail _ _ _ H)) ].

(** Evaluates [adapter_class] and [adapter_key] at a literal name. *)
Ltac adapter_names :=
  repeat match goal with
    | H : context [adapter_key ?n] |- _ =>
        let v := eval vm_compute in (adapter_key n) in change (adapter_key n) with v in H
    | H : context [adapter_class ?n] |- _ =>
        let v := eval vm_compute in (adapter_class n) in change (adapter_class n) with v in H
    | |- context [adapter_class ?n] =>
        let v := eval vm_compute in (adapter_class n) in change (adapter_class n) with v
    end.

Ltac triple_step :=
  first
    [ apply triple_raise
    | apply triple_ret; trivial
    | eapply triple_bind;
      [ first [ apply triple_call; reflexivity
              | apply triple_log; reflexivity
              | apply triple_getitem
              | apply triple_assert ]
      | intros ? ? ] ].

(** ** The constructor of the adversarial augmentor *)

Section AdversarialInit.
Context `{L : Library}.

Lemma triple_model_branch ok name class key config mn dev mp m :
  ok (EvNewAdapter class) = true ->
  ok (EvLoadModel class) = true ->
  triple ok (AdversarialNoiseAugmentor.model_branch name class key config mn dev mp m)
    (fun _ => True).
Proof.
  intros H1 H2. unfold AdversarialNoiseAugmentor.model_branch.
  destruct (eq_str mn name); [| now apply triple_ret].
  unfold AdversarialNoiseAugmentor.load_adapter.
  apply triple_bind with (Q := fun _ => True); [| intros a _; now apply triple_ret].
  eapply triple_bind; [apply triple_getitem | intros arg _].
  apply triple_bind with (Q := fun _ => True); [now apply triple_call | intros a _].
  now apply triple_call.
Qed.

Lemma model_branch_skip name class key config mn dev mp m w :
  eq_str mn name = false ->
  AdversarialNoiseAugmentor.model_branch name class key config mn dev mp m w = (inr m, w).
Proof.
  intros E. unfold AdversarialNoiseAugmentor.model_branch. now rewrite E.
Qed.

Lemma model_branch_take name class key config mn dev mp m w arg a x1 a' x2 :
  eq_str mn name = true ->
  config !! key = Some arg ->
  new_adapter class arg dev (ext w) = (inr a, x1) ->
  load_model a mp x1 = (inr a', x2) ->
  AdversarialNoiseAugmentor.model_branch name class key config mn dev mp m w =
    (inr (Some a'),
     {| trace := trace w ++ [EvNewAdapter class; EvLoadModel class]; ext := x2 |}).
Proof.
  intros E Harg Hnew Hload.
  unfold AdversarialNoiseAugmentor.model_branch, AdversarialNoiseAugmentor.load_adapter.
  rewrite E.
  rewrite (bind_inr _ _ w a'
             {| trace := trace w ++ [EvNewAdapter class; EvLoadModel class]; ext := x2 |});
    [reflexivity |].
  run_get Harg. run_call Hnew.
  match goal with
  | |- call ?ev ?f ?w' = _ => rewrite (call_eq ev f w' _ _ Hload)
  end.
  cbn [trace ext]. now rewrite app_trace.
Qed.


Ltac run_branch Harg Hnew Hload :=
  match goal with
  | |- context [bind (AdversarialNoiseAugmentor.model_branch ?n ?c ?key ?cfg ?mn ?dev ?mp ?m) ?k ?w] =>
      first
        [ rewrite (bind_inr _ k w _ _
                     (model_branch_skip n c key cfg mn dev mp m w (eq_refl false)))
        | rewrite (bind_inr _ k w _ _
                     (model_branch_take n c key cfg mn dev mp m w _ _ _ _ _
                        (eq_refl true) Harg Hnew Hload)) ]
  end.



(** With an unsupported attack name the constructor never returns and adds
    no attack instantiation to the trace. *)
Lemma init_unsupported_adv_triple config y v :
  config !! "adv_method" = Some v ->
  py_in v AdversarialNoiseAugmentor.SUPPORTED_ADV = false ->
  triple (fun e => negb (is_new_attack e))
    (AdversarialNoiseAugmentor.__init__ config y) (fun _ => False).
Proof.
  intros Hv Hin. unfold AdversarialNoiseAugmentor.__init__.
  do 7 triple_step.
  do 4 (eapply triple_bind; [now apply triple_model_branch | intros ? _]).
  do 2 triple_step.
  congruence.
Qed.



(** The chain of [if]s for a supported model name: exactly the branch of
    that name runs.  Up to the second assertion the constructor has then
    read the adapter's key, instantiated the adapter and loaded its
    weights, and an unsupported attack name raises that assertion's
    message in the world those calls left. *)
Lemma init_unsupported_adv_run config y w b x name mp dev am arg a x1 a' x2 :
  base_init [VDict config] (ext w) = (inr b, x) ->
  config !! "model_name" = Some (VStr name) ->
  config !! "model_pretrained" = Some mp ->
  config !! "device" = Some dev ->
  config !! "adv_method" = Some am ->
  In name AdversarialNoiseAugmentor.SUPPORTED_CM ->
  config !! adapter_key name = Some arg ->
  new_adapter (adapter_class name) arg dev x = (inr a, x1) ->
  load_model a mp x1 = (inr a', x2) ->
  py_in am AdversarialNoiseAugmentor.SUPPORTED_ADV = false ->
  AdversarialNoiseAugmentor.__init__ config y w =
    (inl (AssertionError "adv_method must be one of ['ProjectedGradientDescent', 'FastGradientMethod', 'AutoProjectedGradientDescent']"),
     {| trace := trace w ++ [EvBaseInit; EvAssertModel;
                             EvNewAdapter (adapter_class name);
                             EvLoadModel (adapter_class name);
                             EvAssertAdv];
        ext := x2 |}).
Proof.
  intros Hb Hmn Hmp Hdev Ham Hname Harg Hnew Hload Hin.
  unfold AdversarialNoiseAugmentor.__init__.
  run_call Hb. run_get Hmn. run_get Hmp. run_get Hdev. run_get Ham.
  run_log.
  cbn in Hname.
  destruct Hname as [<-|[<-|[<-|[<-|[]]]]];
    (run_assert (eq_refl true));
    adapter_names;
    do 4 run_branch Harg Hnew Hload;
    run_log; run_assert Hin;
    now rewrite <- !app_assoc.
Qed.



(** C3 (as amended).  A configuration whose [adv_method] is outside
    [SUPPORTED_ADV] never yields an instance and the attack object is
    never instantiated; when everything before the second assertion goes
    through (the base initialiser, the four keys, a supported model name,
    the adapter's own key, the adapter and its weights), the failure is the
    assertion whose message lists the three supported attack names. *)
Theorem unsupported_adv_method_rejected config y w v :
  config !! "adv_method" = Some v ->
  py_in v AdversarialNoiseAugmentor.SUPPORTED_ADV = false ->
  (exists e evs,
      fst (AdversarialNoiseAugmentor.__init__ config y w) = inl e /\
      trace (snd (AdversarialNoiseAugmentor.__init__ config y w)) = trace w ++ evs /\
      forallb (fun ev => negb (is_new_attack ev)) evs = true) /\
  (forall b x name mp dev arg a x1 a' x2,
      base_init [VDict config] (ext w) = (inr b, x) ->
      config !! "model_name" = Some (VStr name) ->
      config !! "model_pretrained" = Some mp ->
      config !! "device" = Some dev ->
      In name AdversarialNoiseAugmentor.SUPPORTED_CM ->
      config !! adapter_key name = Some arg ->
      new_adapter (adapter_class name) arg dev x = (inr a, x1) ->
      load_model a mp x1 = (inr a', x2) ->
      fst (AdversarialNoiseAugmentor.__init__ config y w) =
        inl (AssertionError
               "adv_method must be one of ['ProjectedGradientDescent', 'FastGradientMethod', 'AutoProjectedGradientDescent']")).
Proof.
  intros Hv Hin. split.
  - apply triple_fails. now apply init_unsupported_adv_triple with v.
  - intros b x name mp dev arg a x1 a' x2 Hb Hmn Hmp Hdev Hname Harg Hnew Hload.
    now rewrite (init_unsupported_adv_run config y w b x name mp dev v arg a x1 a' x2).
Qed.

(** C9 (as amended).  With a supported model name and an unsupported attack
    name, when the adapter's key is present and the adapter and its weights
    load, the constructor fails on the second assertion only after the
    adapter was instantiated and [load_model] ran: both calls are in the
    trace before the assertion, and the world is left in the state
    [load_model] produced. *)
Theorem adapter_loaded_before_adv_method_check
    config y w b x name mp dev am arg a x1 a' x2 :
  base_init [VDict config] (ext w) = (inr b, x) ->
  config !! "model_name" = Some (VStr name) ->
  config !! "model_pretrained" = Some mp ->
  config !! "device" = Some dev ->
  config !! "adv_method" = Some am ->
  In name AdversarialNoiseAugmentor.SUPPORTED_CM ->
  py_in am AdversarialNoiseAugmentor.SUPPORTED_ADV = false ->
  config !! adapter_key name = Some arg ->
  new_adapter (adapter_class name) arg dev x = (inr a, x1) ->
  load_model a mp x1 = (inr a', x2) ->
  let r := AdversarialNoiseAugmentor.__init__ config y w in
  (exists msg, fst r = inl (AssertionError msg)) /\
  trace (snd r) =
    trace w ++ [EvBaseInit; EvAssertModel]
            ++ [EvNewAdapter (adapter_class name); EvLoadModel (adapter_class name)]
            ++ [EvAssertAdv] /\
  ext (snd r) = x2.
Proof.
  intros Hb Hmn Hmp Hdev Ham Hname Hin Harg Hnew Hload r. subst r.
  rewrite (init_unsupported_adv_run config y w b x name mp dev am arg a x1 a' x2)
    by assumption.
  cbn. eauto.
Qed.


End AdversarialInit.

(** ** Chunking and reassembly *)

Section ChunkingProperties.
Context `{Num}.

Lemma pad_length n (c : Waveform) : length c <= n -> length (pad n c) = n.
Proof.
  intros Hle. unfold pad. rewrite length_app, repeat_length. lia.
Qed.

Lemma windows_nil n fuel : windows n fuel [] = [].
Proof. now destruct fuel. Qed.

(** The windows partition the audio: every window but the last is full,
    the last is not longer, and together they are the audio. *)
Lemma windows_spec n fuel (l : Waveform) :
  0 < n -> length l <= fuel ->
  concat (windows n fuel l) = l /\
  Forall (fun c => length c = n) (List.removelast (windows n fuel l)) /\
  length (List.last (windows n fuel l) []) <= n.
Proof.
  intros Hn. revert l. induction fuel as [|fuel IH]; intros l Hlen.
  - destruct l; [| cbn in Hlen; lia]. cbn. repeat split; auto; lia.
  - destruct l as [|a l]; [cbn; repeat split; auto; lia |].
    set (l0 := a :: l) in *.
    assert (Hskip : length (skipn n l0) <= fuel).
    { rewrite length_skipn. subst l0. cbn [length] in *. lia. }
    destruct (IH _ Hskip) as (Hc & Hf & Hl).
    change (windows n (S fuel) l0) with (firstn n l0 :: windows n fuel (skipn n l0)).
    split; [cbn [concat]; rewrite Hc; apply firstn_skipn |].
    destruct (windows n fuel (skipn n l0)) as [|c cs] eqn:Hw.
    + cbn. split; [constructor |]. rewrite length_firstn. lia.
    + assert (Hne : skipn n l0 <> []).
      { intros E. rewrite E, windows_nil in Hw. discriminate. }
      assert (Hlong : n < length l0).
      { destruct (Nat.lt_ge_cases n (length l0)) as [|Hge]; [assumption |].
        exfalso. apply Hne. now apply skipn_all2. }
      split.
      * change (List.removelast (firstn n l0 :: c :: cs))
          with (firstn n l0 :: List.removelast (c :: cs)).
        constructor; [| exact Hf]. rewrite length_firstn. lia.
      * exact Hl.
Qed.

(** Results as long as full chunks, joined and cut to the remainder, are
    as long as the windows they came from. *)
Lemma chunk_to_audio_length n (ws outs : list Waveform) :
  Forall2 (fun _ o => length o = n) ws outs ->
  Forall (fun c => length c = n) (List.removelast ws) ->
  length (List.last ws []) <= n ->
  length (chunk_to_audio outs (length (List.last ws []))) = length (concat ws).
Proof.
  unfold chunk_to_audio.
  induction 1 as [|c o ws outs Ho Hrest IH]; intros Hfull Hlast.
  - reflexivity.
  - destruct Hrest as [|c' o' ws' outs' Ho' Hrest'].
    + cbn in *. rewrite length_firstn, length_app. cbn. lia.
    + change (List.removelast (c :: c' :: ws')) with (c :: List.removelast (c' :: ws')) in Hfull.
      change (List.last (c :: c' :: ws') []) with (List.last (c' :: ws') []) in *.
      change (List.removelast (o :: o' :: outs')) with (o :: List.removelast (o' :: outs')).
      change (List.last (o :: o' :: outs') []) with (List.last (o' :: outs') []).
      inversion Hfull as [|? ? Hc Hfull']; subst.
      specialize (IH Hfull' Hlast).
      cbn [concat]. rewrite <- app_assoc, (length_app o), (length_app c).
      cbn [concat] in IH. unfold Waveform in *. lia.
Qed.

(** Splitting with [get_chunk] and joining results of the chunks' length
    with [chunk_to_audio] gives back the sample count of the audio. *)
Lemma chunk_roundtrip_length n (audio : Waveform) (outs : list Waveform) :
  Forall2 (fun c o => length o = length c) (fst (get_chunk n audio)) outs ->
  length (chunk_to_audio outs (snd (get_chunk n audio))) = length audio.
Proof.
  unfold get_chunk. cbn [fst snd]. intros Houts.
  destruct (windows_spec (Pos.to_nat n) (length audio) audio) as (Hc & Hf & Hl);
    [lia | lia |].
  set (ws := windows (Pos.to_nat n) (length audio) audio) in *.
  rewrite (chunk_to_audio_length (Pos.to_nat n) ws outs); auto.
  - now rewrite Hc.
  - assert (Hall : Forall (fun c : Waveform => length c <= Pos.to_nat n) ws).
    { clear Houts Hc. induction ws as [|c cs IHcs]; [constructor |].
      destruct cs as [|c' cs'].
      - constructor; [exact Hl | constructor].
      - change (List.removelast (c :: c' :: cs')) with (c :: List.removelast (c' :: cs')) in Hf.
        inversion Hf; subst. constructor; [lia | now apply IHcs]. }
    clear Hc Hf Hl. revert outs Houts.
    induction ws as [|c cs IHcs]; intros outs Houts; inversion Houts; subst.
    + constructor.
    + inversion Hall; subst. constructor.
      * rewrite pad_length in *; auto.
      * now apply IHcs.
Qed.

End ChunkingProperties.

(** ** The methods of the adversarial augmentor *)

Section AdversarialTransform.
Context `{L : Library}.

Lemma on_world_eq {Self A} (c : M World A) (s : Self) w r w' :
  c w = (r, w') -> on_world c (s, w) = (r, (s, w')).
Proof. intros E. unfold on_world. cbn. now rewrite E. Qed.

Lemma generate_row0_ok atk x y w row rest e' :
  generate atk x y (ext w) = (inr (row :: rest), e') ->
  AdversarialNoiseAugmentor.generate_row0 atk x y w =
    (inr row,
     {| trace := trace w ++ [EvGenerate (AdversarialNoiseAugmentor.labelled y)];
        ext := e' |}).
Proof.
  intros E. unfold AdversarialNoiseAugmentor.generate_row0.
  now run_call E.
Qed.

Lemma generate_row0_inv atk x y w row w1 :
  AdversarialNoiseAugmentor.generate_row0 atk x y w = (inr row, w1) ->
  exists more e', generate atk x y (ext w) = (inr (row :: more), e').
Proof.
  unfold AdversarialNoiseAugmentor.generate_row0, bind, call.
  destruct (generate atk x y (ext w)) as [[e|[|r more]] e']; try discriminate.
  intros E. injection E as -> _. now exists more, e'.
Qed.

(** Whatever the label, every result the loop returns is the first row of
    a call of [generate] without a label on the corresponding chunk. *)
Lemma attack_chunks_results_unlabelled atk y chunks :
  forall acc w outs w',
    AdversarialNoiseAugmentor.attack_chunks atk y chunks acc w = (inr outs, w') ->
    exists rows,
      outs = acc ++ rows /\
      Forall2 (fun chunk row =>
                 exists e more e', generate atk chunk None e = (inr (row :: more), e'))
        chunks rows.
Proof.
  induction chunks as [|chunk rest IH]; intros acc w outs w' Hrun.
  - injection Hrun as <- _. exists []. rewrite app_nil_r. split; [reflexivity | constructor].
  - cbn [AdversarialNoiseAugmentor.attack_chunks] in Hrun.
    apply bind_inv in Hrun as (_ & w1 & _ & Hrun).
    apply bind_inv in Hrun as (row & w2 & Hrow & Hrun).
    destruct (generate_row0_inv _ _ _ _ _ _ Hrow) as (more & e' & Hgen).
    destruct (IH _ _ _ _ Hrun) as (rows & -> & Hall).
    exists (row :: rows). split.
    + now rewrite <- app_assoc.
    + constructor; [now exists (ext w1), more, e' | exact Hall].
Qed.

(** When every call of [generate] on a chunk returns a batch whose first
    row is as long as the chunk, the loop returns one result per chunk, of
    the chunk's length. *)
Lemma attack_chunks_lengths atk y chunks :
  (forall x y' e, In x chunks ->
     exists row rest e', generate atk x y' e = (inr (row :: rest), e') /\
                         length row = length x) ->
  forall acc w, exists outs w',
    AdversarialNoiseAugmentor.attack_chunks atk y chunks acc w = (inr (acc ++ outs), w') /\
    Forall2 (fun c o => length o = length c) chunks outs.
Proof.
  induction chunks as [|chunk rest IH]; intros Hgen acc w.
  - exists [], w. rewrite app_nil_r. split; [reflexivity | constructor].
  - cbn [AdversarialNoiseAugmentor.attack_chunks].
    assert (Hin : In chunk (chunk :: rest)) by now left.
    assert (Hfirst : exists w1,
      (match y with
       | Some l => temp <- AdversarialNoiseAugmentor.generate_row0 atk chunk (Some l) ;; ret tt
       | None => ret tt
       end) w = (inr tt, w1)).
    { destruct y as [l|]; [| now exists w].
      destruct (Hgen chunk (Some l) (ext w) Hin) as (row & more & e' & Hg & _).
      eexists. now rewrite (bind_inr _ _ _ _ _ (generate_row0_ok _ _ _ _ _ _ _ Hg)). }
    destruct Hfirst as (w1 & Hfirst).
    rewrite (bind_inr _ _ _ _ _ Hfirst).
    destruct (Hgen chunk None (ext w1) Hin) as (row & more & e' & Hg & Hlen).
    rewrite (bind_inr _ _ _ _ _ (generate_row0_ok _ _ _ _ _ _ _ Hg)).
    destruct (IH (fun x y' e Hx => Hgen x y' e (or_intror Hx)) (acc ++ [row])
                 {| trace := trace w1 ++ [EvGenerate false]; ext := e' |})
      as (outs & w' & Hrun & Hall).
    exists (row :: outs), w'. split.
    + cbn [AdversarialNoiseAugmentor.labelled]. rewrite Hrun.
      now rewrite <- app_assoc.
    + now constructor.
Qed.

(** The outcomes of [transform], by the outcome of each of its steps. *)
Lemma adv_transform_run s w :
  match data (AdversarialNoiseAugmentor.base s) with
  | None =>
      AdversarialNoiseAugmentor.transform (s, w) = (inl (LibraryError "get_chunk"), (s, w))
  | Some audio =>
      match AdversarialNoiseAugmentor.attack_chunks
              (AdversarialNoiseAugmentor.adv_class s) (AdversarialNoiseAugmentor.y_true s)
              (fst (get_chunk (window (AdversarialNoiseAugmentor.artmodel s)) audio)) [] w
      with
      | (inl e, w') => AdversarialNoiseAugmentor.transform (s, w) = (inl e, (s, w'))
      | (inr adv_res, w') =>
          match librosa_to_pydub
                  (chunk_to_audio adv_res
                     (snd (get_chunk (window (AdversarialNoiseAugmentor.artmodel s)) audio)))
                  (sr (AdversarialNoiseAugmentor.base s))
          with
          | inl e => AdversarialNoiseAugmentor.transform (s, w) = (inl e, (s, w'))
          | inr seg =>
              AdversarialNoiseAugmentor.transform (s, w) =
                (inr tt,
                 (AdversarialNoiseAugmentor.set_base (set_augmented_audio seg) s, w'))
          end
      end
  end.
Proof.
  unfold AdversarialNoiseAugmentor.transform.
  rewrite (bind_inr self _ (s, w) s (s, w) eq_refl).
  destruct (data (AdversarialNoiseAugmentor.base s)) as [audio|]; [| reflexivity].
  rewrite (bind_inr _ _ (s, w) audio (s, w) eq_refl).
  destruct (get_chunk (window (AdversarialNoiseAugmentor.artmodel s)) audio)
    as [chunks last_size]. cbn [fst snd].
  destruct (AdversarialNoiseAugmentor.attack_chunks _ _ chunks [] w) as [[e|adv_res] w'] eqn:Hloop.
  - now rewrite (bind_inl _ _ _ _ _ (on_world_eq _ s _ _ _ Hloop)).
  - rewrite (bind_inr _ _ _ _ _ (on_world_eq _ s _ _ _ Hloop)).
    unfold bind, lift, set_self, modify.
    now destruct (librosa_to_pydub _ _).
Qed.

(** C5.  For a loaded buffer, [transform] splits the audio with
    [get_chunk] into chunks and a remainder size, runs the loop over the
    chunks, and joins the loop's results with [chunk_to_audio] and that
    remainder size.  When every call of [generate] on a chunk returns a
    first row of the chunk's length, the loop returns one result per chunk,
    each of its chunk's length, the joined waveform has the sample count of
    the loaded audio, and it is this waveform that [transform] hands to the
    conversion (storing the segment, or letting the conversion's error
    through). *)
Theorem transform_reproduces_sample_count s w audio :
  data (AdversarialNoiseAugmentor.base s) = Some audio ->
  (forall x y e,
     In x (fst (get_chunk (window (AdversarialNoiseAugmentor.artmodel s)) audio)) ->
     exists row rest e',
       generate (AdversarialNoiseAugmentor.adv_class s) x y e = (inr (row :: rest), e') /\
       length row = length x) ->
  exists adv_res w',
    AdversarialNoiseAugmentor.attack_chunks
      (AdversarialNoiseAugmentor.adv_class s) (AdversarialNoiseAugmentor.y_true s)
      (fst (get_chunk (window (AdversarialNoiseAugmentor.artmodel s)) audio)) [] w =
      (inr adv_res, w') /\
    Forall2 (fun chunk out => length out = length chunk)
      (fst (get_chunk (window (AdversarialNoiseAugmentor.artmodel s)) audio)) adv_res /\
    length (chunk_to_audio adv_res
              (snd (get_chunk (window (AdversarialNoiseAugmentor.artmodel s)) audio))) =
      length audio /\
    AdversarialNoiseAugmentor.transform (s, w) =
      match librosa_to_pydub
              (chunk_to_audio adv_res
                 (snd (get_chunk (window (AdversarialNoiseAugmentor.artmodel s)) audio)))
              (sr (AdversarialNoiseAugmentor.base s))
      with
      | inr seg =>
          (inr tt, (AdversarialNoiseAugmentor.set_base (set_augmented_audio seg) s, w'))
      | inl e => (inl e, (s, w'))
      end.
Proof.
  intros Hdata Hgen.
  pose proof (adv_transform_run s w) as Hrun. rewrite Hdata in Hrun.
  destruct (attack_chunks_lengths _ (AdversarialNoiseAugmentor.y_true s) _ Hgen [] w)
    as (outs & w' & Hloop & Hall).
  rewrite Hloop in Hrun. cbn [app] in Hrun, Hloop.
  exists outs, w'. repeat split.
  - exact Hloop.
  - exact Hall.
  - now apply chunk_roundtrip_length.
  - now destruct (librosa_to_pydub _ _).
Qed.

(** C6.  [transform_load] raises [NotImplementedError] for every instance,
    world and pair of arguments, and leaves the instance and the world as
    they were. *)
Theorem transform_load_not_implemented
    (s : AdversarialNoiseAugmentor.Self) (w : World) (input_dir batch_size : Value) :
  AdversarialNoiseAugmentor.transform_load input_dir batch_size (s, w) =
    (inl NotImplementedError, (s, w)).
Proof.
  unfold AdversarialNoiseAugmentor.transform_load, raise.
  reflexivity.
Qed.

End AdversarialTransform.

(** ** The speed augmentor *)

Section SpeedProperties.
Context `{L : Library}.

(** The constructor, when the base initialiser returns and both bounds are
    numbers: one draw, taken in the state the base initialiser left. *)
Lemma speed_init_run input_path config w b x lo hi :
  base_init [input_path; VDict config] (ext w) = (inr b, x) ->
  config !! "min_speed_factor" = Some (VNum lo) ->
  config !! "max_speed_factor" = Some (VNum hi) ->
  SpeedAugmentor.__init__ input_path config w =
    (inr {| SpeedAugmentor.base := b;
            SpeedAugmentor.speed_factor := nadd lo (nmul (nsub hi lo) (fst (random x)));
            SpeedAugmentor.audio_data := None |},
     {| trace := trace w ++ [EvBaseInit; EvRandom]; ext := snd (random x) |}).
Proof.
  intros Hb Hlo Hhi. unfold SpeedAugmentor.__init__.
  run_call Hb. run_get Hlo. run_get Hhi.
  unfold random_uniform, bind, call, ret. cbn [ext trace].
  destruct (random x) as [u x']. cbn [fst snd].
  now rewrite app_trace.
Qed.

(** A constructor that returned went through exactly those steps. *)
Lemma speed_init_inv input_path config w s w' :
  SpeedAugmentor.__init__ input_path config w = (inr s, w') ->
  exists b x lo hi,
    base_init [input_path; VDict config] (ext w) = (inr b, x) /\
    config !! "min_speed_factor" = Some (VNum lo) /\
    config !! "max_speed_factor" = Some (VNum hi).
Proof.
  unfold SpeedAugmentor.__init__.
  destruct (base_init [input_path; VDict config] (ext w)) as [[e|b] x] eqn:Hb;
    [run_call Hb; discriminate | run_call Hb].
  destruct (config !! "min_speed_factor") as [lo|] eqn:Hlo;
    [run_get Hlo | run_get Hlo; discriminate].
  destruct (config !! "max_speed_factor") as [hi|] eqn:Hhi;
    [run_get Hhi | run_get Hhi; discriminate].
  destruct lo as [|lo| |]; try discriminate.
  destruct hi as [|hi| |]; try discriminate.
  intros _. now exists b, x, lo, hi.
Qed.

(** The outcomes of [transform]. *)
Lemma speed_transform_run s w :
  SpeedAugmentor.transform (s, w) =
    match SpeedAugmentor.audio_data s with
    | None => (inl AttributeError, (s, w))
    | Some a =>
        match speedup a (SpeedAugmentor.speed_factor s) with
        | inl e => (inl e, (s, w))
        | inr out => (inr tt, (SpeedAugmentor.set_base (set_augmented_audio out) s, w))
        end
    end.
Proof.
  unfold SpeedAugmentor.transform, bind, self, lift, set_self, modify. cbn [fst snd].
  destruct (SpeedAugmentor.audio_data s) as [a|]; [| reflexivity].
  cbn. now destruct (speedup a (SpeedAugmentor.speed_factor s)).
Qed.

(** C7.  For an instance the constructor returned: the constructor made
    exactly one draw, in the state the base initialiser left, and the speed
    factor is the value computed from that draw; [transform] makes no draw,
    touches neither the world nor the factor; and a second [transform] on
    the state the first one left gives the same outcome and the same
    state, so the same augmented output. *)
Theorem randomness_consumed_once_at_construction input_path config w s w' :
  SpeedAugmentor.__init__ input_path config w = (inr s, w') ->
  (exists b x lo hi,
      base_init [input_path; VDict config] (ext w) = (inr b, x) /\
      config !! "min_speed_factor" = Some (VNum lo) /\
      config !! "max_speed_factor" = Some (VNum hi) /\
      SpeedAugmentor.speed_factor s = nadd lo (nmul (nsub hi lo) (fst (random x))) /\
      ext w' = snd (random x) /\
      exists evs, trace w' = trace w ++ evs /\ filter is_random evs = [EvRandom]) /\
  (forall st,
      snd (snd (SpeedAugmentor.transform st)) = snd st /\
      SpeedAugmentor.speed_factor (fst (snd (SpeedAugmentor.transform st))) =
        SpeedAugmentor.speed_factor (fst st)) /\
  (forall st,
      SpeedAugmentor.transform (snd (SpeedAugmentor.transform st)) =
        SpeedAugmentor.transform st).
Proof.
  intros Hrun. split; [| split].
  - destruct (speed_init_inv _ _ _ _ _ Hrun) as (b & x & lo & hi & Hb & Hlo & Hhi).
    rewrite (speed_init_run _ _ _ _ _ _ _ Hb Hlo Hhi) in Hrun.
    injection Hrun as <- <-.
    exists b, x, lo, hi. cbn. repeat split; auto.
    now exists [EvBaseInit; EvRandom].
  - intros [s0 w0]. rewrite speed_transform_run.
    destruct (SpeedAugmentor.audio_data s0) as [a|]; [| now cbn].
    now destruct (speedup a (SpeedAugmentor.speed_factor s0)).
  - intros [s0 w0]. rewrite (speed_transform_run s0 w0).
    destruct (SpeedAugmentor.audio_data s0) as [a|] eqn:Ha.
    + destruct (speedup a (SpeedAugmentor.speed_factor s0)) as [e|out] eqn:Hs;
        cbn [snd]; rewrite speed_transform_run; cbn; now rewrite ?Ha, Hs.
    + cbn [snd]. rewrite speed_transform_run. now rewrite Ha.
Qed.

End SpeedProperties.

(** ** Binary64 arithmetic of the draw

    [random.uniform(a, b)] evaluates [a + (b - a) * u] with three rounded
    operations.  The lemmas below characterise the rounding of the
    specification floats and derive that the result stays between [a] and
    [b] whenever [b - a] is finite. *)

Section Binary64Arithmetic.
Local Open Scope Z_scope.

(** The number of binary digits of a mantissa. *)
Lemma digits2_pos_bounds (m : positive) :
  2 ^ (Zpos (digits2_pos m) - 1) <= Zpos m < 2 ^ Zpos (digits2_pos m).
Proof.
  induction m as [m IH|m IH|]; cbn [digits2_pos].
  - rewrite Pos2Z.inj_succ.
    replace (Z.succ (Zpos (digits2_pos m)) - 1) with (Z.succ (Zpos (digits2_pos m) - 1)) by lia.
    rewrite !Z.pow_succ_r by lia. lia.
  - rewrite Pos2Z.inj_succ.
    replace (Z.succ (Zpos (digits2_pos m)) - 1) with (Z.succ (Zpos (digits2_pos m) - 1)) by lia.
    rewrite !Z.pow_succ_r by lia. lia.
  - cbn. lia.
Qed.

Lemma iter_pos_nat {A} (f : A -> A) (p : positive) (x : A) :
  SpecFloat.iter_pos f p x = Nat.iter (Pos.to_nat p) f x.
Proof.
  revert x. induction p as [p IH|p IH|]; intros x; cbn [SpecFloat.iter_pos].
  - rewrite !IH, Pos2Nat.inj_xI.
    replace (S (2 * Pos.to_nat p))%nat with (Pos.to_nat p + (Pos.to_nat p + 1))%nat by lia.
    rewrite !Nat.iter_add. cbn. reflexivity.
  - rewrite !IH, Pos2Nat.inj_xO.
    replace (2 * Pos.to_nat p)%nat with (Pos.to_nat p + Pos.to_nat p)%nat by lia.
    now rewrite Nat.iter_add.
  - reflexivity.
Qed.

Lemma shr_1_spec m r s :
  0 <= m ->
  shr_1 {| shr_m := m; shr_r := r; shr_s := s |} =
    {| shr_m := m / 2; shr_r := Z.odd m; shr_s := orb r s |}.
Proof.
  intros Hm. destruct m as [|[p|p|]|p]; try lia; cbn [shr_1 Z.odd].
  - reflexivity.
  - f_equal. rewrite Pos2Z.inj_xI. apply Z.div_unique with 1; lia.
  - f_equal. rewrite Pos2Z.inj_xO. apply Z.div_unique with 0; lia.
  - reflexivity.
Qed.

(** [k] steps of [shr_1] from an exact record: the quotient by [2 ^ k], the
    bit below it and whether anything lower is set. *)
Lemma shr_iter_spec m (k : nat) :
  0 <= m ->
  Nat.iter (S k) shr_1 {| shr_m := m; shr_r := false; shr_s := false |} =
    {| shr_m := m / 2 ^ Z.of_nat (S k);
       shr_r := Z.odd (m / 2 ^ Z.of_nat k);
       shr_s := negb (m mod 2 ^ Z.of_nat k =? 0) |}.
Proof.
  intros Hm. induction k as [|k IH].
  - cbn [Nat.iter]. rewrite shr_1_spec by assumption.
    change (2 ^ Z.of_nat 1) with 2. change (2 ^ Z.of_nat 0) with 1.
    rewrite Z.div_1_r, Z.mod_1_r. reflexivity.
  - change (Nat.iter (S (S k)) shr_1 ?x) with (shr_1 (Nat.iter (S k) shr_1 x)).
    rewrite IH, shr_1_spec by (apply Z.div_pos; [lia | apply Z.pow_pos_nonneg; lia]).
    assert (HP : 0 < 2 ^ Z.of_nat k) by (apply Z.pow_pos_nonneg; lia).
    assert (HS : 2 ^ Z.of_nat (S k) = 2 ^ Z.of_nat k * 2).
    { rewrite Nat2Z.inj_succ, Z.pow_succ_r by lia. lia. }
    assert (HSS : 2 ^ Z.of_nat (S (S k)) = 2 ^ Z.of_nat (S k) * 2).
    { rewrite (Nat2Z.inj_succ (S k)), Z.pow_succ_r by lia. lia. }
    f_equal.
    + rewrite HSS, Z.div_div by lia. reflexivity.
    + rewrite HS, Z.rem_mul_r by lia.
      set (a := m mod 2 ^ Z.of_nat k). set (q := m / 2 ^ Z.of_nat k).
      assert (Ha : 0 <= a < 2 ^ Z.of_nat k) by (apply Z.mod_pos_bound; lia).
      rewrite Zmod_odd.
      destruct (Z.odd q); cbn [orb].
      * destruct (Z.eqb_spec (a + 2 ^ Z.of_nat k * 1) 0); [lia | reflexivity].
      * now rewrite Z.mul_0_r, Z.add_0_r.
Qed.

(** The nearest integer is the floor or one above it, and which one is
    decided by the remainder away from a tie. *)
Lemma rne_bounds m n :
  0 <= n ->
  m / 2 ^ n <= nearest_even m n <= m / 2 ^ n + 1 /\
  (2 * (m mod 2 ^ n) < 2 ^ n -> nearest_even m n = m / 2 ^ n) /\
  (2 ^ n < 2 * (m mod 2 ^ n) -> nearest_even m n = m / 2 ^ n + 1).
Proof.
  intros Hn. unfold nearest_even.
  destruct (Z.ltb_spec (2 * (m mod 2 ^ n)) (2 ^ n));
    [| destruct (Z.ltb_spec (2 ^ n) (2 * (m mod 2 ^ n)));
       [| destruct (Z.even (m / 2 ^ n))]];
    repeat split; intros; lia.
Qed.

(** Shifting an exact mantissa right by [n] and rounding the record to
    nearest even is [nearest_even]. *)
Lemma shr_round m e n :
  0 <= m -> 0 <= n ->
  snd (shr {| shr_m := m; shr_r := false; shr_s := false |} e n) = e + n /\
  round_nearest_even
    (shr_m (fst (shr {| shr_m := m; shr_r := false; shr_s := false |} e n)))
    (loc_of_shr_record (fst (shr {| shr_m := m; shr_r := false; shr_s := false |} e n)))
  = nearest_even m n.
Proof.
  intros Hm Hn. destruct n as [|p|p]; try lia.
  - cbn [shr fst snd shr_m loc_of_shr_record round_nearest_even].
    split; [lia |]. unfold nearest_even. rewrite Z.pow_0_r, Z.div_1_r, Z.mod_1_r. reflexivity.
  - cbn [shr fst snd]. split; [reflexivity |].
    rewrite iter_pos_nat.
    destruct (Pos2Nat.is_succ p) as (k & Hk). rewrite Hk.
    rewrite shr_iter_spec by assumption.
    assert (HSk : Z.of_nat (S k) = Zpos p) by (rewrite <- Hk; apply positive_nat_Z).
    rewrite HSk.
    assert (HP : 0 < 2 ^ Z.of_nat k) by (apply Z.pow_pos_nonneg; lia).
    assert (H2 : 2 ^ Zpos p = 2 ^ Z.of_nat k * 2).
    { rewrite <- HSk, Nat2Z.inj_succ, Z.pow_succ_r by lia. lia. }
    unfold nearest_even.
    assert (Hrem : Zpos p = Z.of_nat k + 1) by lia.
    rewrite H2, Z.rem_mul_r by lia.
    set (a := m mod 2 ^ Z.of_nat k). set (q := m / 2 ^ Z.of_nat k).
    assert (Ha : 0 <= a < 2 ^ Z.of_nat k) by (apply Z.mod_pos_bound; lia).
    rewrite Zmod_odd.
    assert (Hqq : m / (2 ^ Z.of_nat k * 2) = q / 2) by (unfold q; rewrite Z.div_div; lia).
    rewrite Hqq.
    cbn [shr_m loc_of_shr_record].
    destruct (Z.odd q); destruct (Z.eqb_spec a 0) as [Ha0|Ha0];
      cbn [negb loc_of_shr_record round_nearest_even].
    + rewrite Ha0.
      destruct (Z.ltb_spec (2 * (0 + 2 ^ Z.of_nat k * 1)) (2 ^ Z.of_nat k * 2)); [lia |].
      destruct (Z.ltb_spec (2 ^ Z.of_nat k * 2) (2 * (0 + 2 ^ Z.of_nat k * 1))); [lia |].
      reflexivity.
    + destruct (Z.ltb_spec (2 * (a + 2 ^ Z.of_nat k * 1)) (2 ^ Z.of_nat k * 2)); [lia |].
      destruct (Z.ltb_spec (2 ^ Z.of_nat k * 2) (2 * (a + 2 ^ Z.of_nat k * 1))); [| lia].
      reflexivity.
    + rewrite Ha0.
      destruct (Z.ltb_spec (2 * (0 + 2 ^ Z.of_nat k * 0)) (2 ^ Z.of_nat k * 2)); [| lia].
      reflexivity.
    + destruct (Z.ltb_spec (2 * (a + 2 ^ Z.of_nat k * 0)) (2 ^ Z.of_nat k * 2)); [| lia].
      reflexivity.
Qed.

Lemma Zdigits2_unique z k :
  2 ^ (k - 1) <= z < 2 ^ k -> 0 < z -> Zdigits2 z = k.
Proof.
  intros Hz Hpos. destruct z as [|p|p]; try lia. cbn [Zdigits2].
  pose proof (digits2_pos_bounds p) as Hd.
  set (d := Zpos (digits2_pos p)) in *.
  assert (Hd0 : 0 < d) by (unfold d; lia).
  destruct (Z.lt_trichotomy d k) as [Hlt|[Heq|Hgt]]; [| assumption |].
  - assert (2 ^ d <= 2 ^ (k - 1)) by (apply Z.pow_le_mono_r; lia). lia.
  - assert (0 <= k).
    { destruct (Z.le_gt_cases 0 k); [assumption |].
      rewrite (Z.pow_neg_r 2 k) in Hz by lia. lia. }
    assert (2 ^ k <= 2 ^ (d - 1)) by (apply Z.pow_le_mono_r; lia). lia.
Qed.

Section Round.
Variables prec emax : Z.
Hypothesis Hprec : 1 < prec.
Hypothesis Hemax : prec < emax.

Local Abbreviation emin := (SpecFloat.emin prec emax).
Local Abbreviation fexp := (SpecFloat.fexp prec emax).
Local Abbreviation round_outcome := (round_result prec emax).

Lemma fexp_ge_emin k : emin <= fexp k.
Proof. unfold SpecFloat.fexp. lia. Qed.

Lemma emin_neg : emin < 0.
Proof. unfold SpecFloat.emin. lia. Qed.

Lemma rne_lt_pow m e :
  let n := fexp (Zpos (digits2_pos m) + e) - e in
  0 <= n ->
  0 <= nearest_even (Zpos m) n <= 2 ^ prec.
Proof.
  intros n Hn.
  destruct (rne_bounds (Zpos m) n Hn) as (Hq & _).
  pose proof (digits2_pos_bounds m) as Hd.
  set (d := Zpos (digits2_pos m)) in *.
  assert (H2n : 0 < 2 ^ n) by (apply Z.pow_pos_nonneg; lia).
  assert (Hq0 : 0 <= Zpos m / 2 ^ n) by (apply Z.div_pos; lia).
  assert (Hlt : Zpos m / 2 ^ n < 2 ^ prec).
  { apply Z.div_lt_upper_bound; [lia |].
    rewrite <- Z.pow_add_r by lia.
    assert (d <= n + prec) by (unfold n, SpecFloat.fexp; lia).
    assert (2 ^ d <= 2 ^ (n + prec)) by (apply Z.pow_le_mono_r; lia).
    lia. }
  lia.
Qed.

(** [binary_round_aux] on an exact mantissa whose exponent is not above the
    exponent of the format: the mantissa is divided by [2 ^ n], rounded to
    nearest even, and renormalised once if the rounding carried. *)
Lemma binary_round_aux_char sx m e :
  let n := fexp (Zpos (digits2_pos m) + e) - e in
  0 <= n ->
  binary_round_aux prec emax sx (Zpos m) e loc_Exact =
    round_outcome sx (nearest_even (Zpos m) n) (e + n).
Proof.
  intros n Hn.
  pose proof (rne_lt_pow m e Hn) as Hq. fold n in Hq.
  unfold binary_round_aux, shr_fexp.
  cbn [shr_record_of_loc Zdigits2]. fold n.
  destruct (shr_round (Zpos m) e n) as (He' & Hround); [lia | lia |].
  destruct (shr {| shr_m := Zpos m; shr_r := false; shr_s := false |} e n) as [mrs' e'].
  cbn [fst snd] in He', Hround. rewrite Hround, He'.
  set (q := nearest_even (Zpos m) n) in *. set (E := e + n) in *.
  assert (HE : emin <= E) by (unfold E, n; pose proof (fexp_ge_emin (Zpos (digits2_pos m) + e)); lia).
  unfold round_result.
  destruct (Z.eqb_spec q 0) as [Hq0|Hq0].
  - rewrite Hq0. cbn [Zdigits2].
    assert (Hn2 : fexp (0 + E) - E <= 0) by (unfold SpecFloat.fexp; lia).
    destruct (fexp (0 + E) - E) as [|p|p] eqn:Hp; try lia; reflexivity.
  - assert (Hqpos : 0 < q) by lia.
    destruct (Z.eqb_spec q (2 ^ prec)) as [Hqp|Hqp].
    + assert (Hd : Zdigits2 q = prec + 1).
      { apply Zdigits2_unique; [| assumption]. rewrite Hqp.
        replace (prec + 1 - 1) with prec by lia.
        split; [lia |]. apply Z.pow_lt_mono_r; lia. }
      rewrite Hd.
      assert (Hn2 : fexp (prec + 1 + E) - E = 1) by (unfold SpecFloat.fexp; lia).
      rewrite Hn2. cbn [shr SpecFloat.iter_pos].
      rewrite shr_1_spec by lia. cbn [shr_m].
      assert (Hhalf : q / 2 = 2 ^ (prec - 1)).
      { rewrite Hqp. replace prec with (Z.succ (prec - 1)) at 1 by lia.
        rewrite Z.pow_succ_r by lia. rewrite Z.mul_comm, Z.div_mul by lia. reflexivity. }
      rewrite Hhalf.
      assert (Hpos : 0 < 2 ^ (prec - 1)) by (apply Z.pow_pos_nonneg; lia).
      destruct (2 ^ (prec - 1)) as [|p|p] eqn:Hp; try lia.
      reflexivity.
    + assert (Hd : Zdigits2 q <= prec).
      { destruct q as [|p|p]; try lia. cbn [Zdigits2].
        pose proof (digits2_pos_bounds p) as Hb.
        destruct (Z.le_gt_cases (Zpos (digits2_pos p)) prec) as [|Hgt]; [assumption |].
        assert (2 ^ prec <= 2 ^ (Zpos (digits2_pos p) - 1)) by (apply Z.pow_le_mono_r; lia).
        lia. }
      assert (Hn2 : fexp (Zdigits2 q + E) - E <= 0) by (unfold SpecFloat.fexp; lia).
      destruct (fexp (Zdigits2 q + E) - E) as [|p|p] eqn:Hp; try lia;
        cbn [shr shr_m]; destruct q as [|p'|p']; try lia; reflexivity.
Qed.

End Round.

Section Values.
Variables prec emax : Z.
Hypothesis Hprec : 1 < prec.
Hypothesis Hemax : prec < emax.

Local Abbreviation emin := (SpecFloat.emin prec emax).
Local Abbreviation fexp := (SpecFloat.fexp prec emax).
Local Abbreviation G := (unit_exp prec emax).
Local Abbreviation W := (units_of prec emax).
Local Abbreviation canon := (canonical prec emax).

Lemma G_le_emin : G <= emin.
Proof. unfold G, SpecFloat.emin. lia. Qed.

Lemma W_shift c e n : 0 <= n -> G <= e -> W c (e + n) = W (c * 2 ^ n) e.
Proof.
  intros Hn He. unfold W.
  replace (e + n - G) with (n + (e - G)) by lia.
  rewrite Z.pow_add_r by lia. ring.
Qed.

Lemma W_le a b e : G <= e -> (W a e <= W b e <-> a <= b).
Proof.
  intros He. unfold W.
  assert (0 < 2 ^ (e - G)) by (apply Z.pow_pos_nonneg; lia).
  split; intros; nia.
Qed.

Lemma W_lt a b e : G <= e -> (W a e < W b e <-> a < b).
Proof.
  intros He. unfold W.
  assert (0 < 2 ^ (e - G)) by (apply Z.pow_pos_nonneg; lia).
  split; intros; nia.
Qed.

Lemma W_pow k e : 0 <= k -> G <= e -> W (2 ^ k) e = 2 ^ (k + e - G).
Proof.
  intros Hk He. unfold W. rewrite <- Z.pow_add_r by lia. f_equal. lia.
Qed.

Lemma canon_lt_pow m e : canon m e -> W m e < 2 ^ (prec + e - G).
Proof.
  intros (He & Hm & _). pose proof G_le_emin.
  rewrite <- W_pow by lia. apply W_lt; lia.
Qed.

Lemma canon_ge_pow m e : canon m e -> emin < e -> 2 ^ (prec - 1 + e - G) <= W m e.
Proof.
  intros (He & Hm & Hn) Hlt. pose proof G_le_emin.
  rewrite <- W_pow by lia. apply W_le; [lia |]. now apply Hn.
Qed.

Section Data.
Variables m e n : Z.
Hypothesis Hm : 0 < m.
Hypothesis He : G <= e.
Hypothesis Hn : 0 <= n.
Hypothesis HE : e + n = fexp (Zdigits2 m + e).

Lemma data_emin : emin <= e + n.
Proof. rewrite HE. unfold SpecFloat.fexp. lia. Qed.

Lemma data_upper : m < 2 ^ (n + prec).
Proof.
  destruct m as [|p|p] eqn:Hp; try lia. cbn [Zdigits2] in HE.
  pose proof (digits2_pos_bounds p) as Hd.
  assert (Zpos (digits2_pos p) <= n + prec) by (unfold SpecFloat.fexp in HE; lia).
  assert (2 ^ Zpos (digits2_pos p) <= 2 ^ (n + prec)) by (apply Z.pow_le_mono_r; lia).
  lia.
Qed.

Lemma data_lower : emin < e + n -> 2 ^ (n + prec - 1) <= m.
Proof.
  intros Hlt. destruct m as [|p|p] eqn:Hp; try lia. cbn [Zdigits2] in HE.
  pose proof (digits2_pos_bounds p) as Hd.
  assert (Zpos (digits2_pos p) = n + prec) by (unfold SpecFloat.fexp in HE; lia).
  replace (n + prec - 1) with (Zpos (digits2_pos p) - 1) by lia. lia.
Qed.

Lemma data_floor_lower : emin < e + n -> 2 ^ (prec - 1) <= m / 2 ^ n.
Proof.
  intros Hlt. apply Z.div_le_lower_bound; [apply Z.pow_pos_nonneg; lia |].
  rewrite <- Z.pow_add_r by lia.
  replace (n + (prec - 1)) with (n + prec - 1) by lia. now apply data_lower.
Qed.

Lemma data_floor_le : W (m / 2 ^ n) (e + n) <= W m e.
Proof.
  rewrite W_shift by assumption. apply W_le; [assumption |].
  rewrite Z.mul_comm. apply Z.mul_div_le. apply Z.pow_pos_nonneg; lia.
Qed.

(** A float below the exact value is below its floor on the grid. *)
Lemma floor_ge_float mf ef :
  canon mf ef -> W mf ef <= W m e -> W mf ef <= W (m / 2 ^ n) (e + n).
Proof.
  intros Hc Hle. pose proof G_le_emin as HG. pose proof data_emin as HEm.
  assert (H2n : 0 < 2 ^ n) by (apply Z.pow_pos_nonneg; lia).
  destruct Hc as (Hef & Hmf & Hnorm).
  destruct (Z.lt_trichotomy ef (e + n)) as [Hlt|[Heq|Hgt]].
  - (* a smaller exponent: below the first float of the binade of the value *)
    pose proof (canon_lt_pow mf ef (conj Hef (conj Hmf Hnorm))) as Hup.
    assert (Hfl : 2 ^ (prec - 1) <= m / 2 ^ n) by (apply data_floor_lower; lia).
    assert (H1 : 2 ^ (prec + ef - G) <= 2 ^ (prec - 1 + (e + n) - G))
      by (apply Z.pow_le_mono_r; lia).
    assert (H2 : W (2 ^ (prec - 1)) (e + n) <= W (m / 2 ^ n) (e + n))
      by (apply W_le; lia).
    rewrite W_pow in H2 by lia. lia.
  - subst ef. rewrite (W_shift mf) in Hle by assumption.
    apply W_le in Hle; [| assumption]. apply W_le; [lia |].
    apply Z.div_le_lower_bound; lia.
  - (* a larger exponent: the float would be above the value *)
    exfalso.
    pose proof (canon_ge_pow mf ef (conj Hef (conj Hmf Hnorm))) as Hlow.
    assert (Hup : W m e < W (2 ^ (n + prec)) e) by (apply W_lt; [assumption | apply data_upper]).
    rewrite W_pow in Hup by lia.
    assert (2 ^ (n + prec + e - G) <= 2 ^ (prec - 1 + ef - G)) by (apply Z.pow_le_mono_r; lia).
    lia.
Qed.

(** The rounded value is not above a multiple of the grid step that is not
    below the exact value. *)
Lemma rne_le_multiple c :
  W m e <= W c (e + n) -> W (nearest_even m n) (e + n) <= W c (e + n).
Proof.
  intros Hle. pose proof data_emin as HEm. pose proof G_le_emin as HG.
  assert (H2n : 0 < 2 ^ n) by (apply Z.pow_pos_nonneg; lia).
  apply W_le; [lia |].
  rewrite W_shift in Hle by assumption. apply W_le in Hle; [| assumption].
  destruct (rne_bounds m n Hn) as (Hq & Hdown & Hup).
  pose proof (Z.div_mod m (2 ^ n) ltac:(lia)) as Hdm.
  pose proof (Z.mod_pos_bound m (2 ^ n) H2n) as Hr.
  destruct (Z.eq_dec (m mod 2 ^ n) 0) as [Hr0|Hr0].
  - rewrite Hdown by lia. nia.
  - assert (m / 2 ^ n < c) by nia. lia.
Qed.

Lemma rne_le_float mf ef :
  canon mf ef -> W m e <= W mf ef -> W (nearest_even m n) (e + n) <= W mf ef.
Proof.
  intros Hc Hle. pose proof G_le_emin as HG. pose proof data_emin as HEm.
  destruct (Z.le_gt_cases (e + n) ef) as [Hge|Hlt].
  - replace ef with ((e + n) + (ef - (e + n))) in Hle |- * by lia.
    rewrite (W_shift mf (e + n) (ef - (e + n))) in Hle |- * by lia.
    now apply rne_le_multiple.
  - exfalso.
    pose proof (canon_lt_pow mf ef Hc) as Hup.
    pose proof data_floor_le as Hfl.
    assert (Hq : 2 ^ (prec - 1) <= m / 2 ^ n) by (apply data_floor_lower; destruct Hc; lia).
    assert (H2 : W (2 ^ (prec - 1)) (e + n) <= W (m / 2 ^ n) (e + n)) by (apply W_le; lia).
    rewrite W_pow in H2 by lia.
    assert (2 ^ (prec + ef - G) <= 2 ^ (prec - 1 + (e + n) - G))
      by (apply Z.pow_le_mono_r; lia).
    lia.
Qed.

(** Below the midpoint of two neighbours of the grid, the rounded value is
    the lower one at most. *)
Lemma rne_below_mid c :
  2 * W m e < W (2 * c - 1) (e + n) -> nearest_even m n <= c - 1.
Proof.
  intros Hlt.
  assert (H2n : 0 < 2 ^ n) by (apply Z.pow_pos_nonneg; lia).
  rewrite W_shift in Hlt by assumption.
  replace (2 * W m e) with (W (2 * m) e) in Hlt by (unfold W; ring).
  apply W_lt in Hlt; [| assumption].
  destruct (rne_bounds m n Hn) as (Hq & Hdown & Hup).
  pose proof (Z.div_mod m (2 ^ n) ltac:(lia)) as Hdm.
  pose proof (Z.mod_pos_bound m (2 ^ n) H2n) as Hr.
  assert (Hqc : m / 2 ^ n <= c - 1) by nia.
  destruct (Z.eq_dec (m / 2 ^ n) (c - 1)) as [Heq|Hne]; [| lia].
  rewrite Hdown; [lia |]. nia.
Qed.

End Data.
End Values.

Section Ops.
Variables prec emax : Z.
Hypothesis Hprec : 1 < prec.
Hypothesis Hemax : prec < emax.

Local Abbreviation emin := (SpecFloat.emin prec emax).
Local Abbreviation fexp := (SpecFloat.fexp prec emax).
Local Abbreviation G := (unit_exp prec emax).
Local Abbreviation W := (units_of prec emax).
Local Abbreviation canon := (canonical prec emax).
Local Abbreviation round_outcome := (round_result prec emax).
Local Abbreviation Fv := (SFunits prec emax).
Local Abbreviation mag := (SFmag prec emax).
Local Abbreviation rounds := (rounds_to prec emax).
Local Abbreviation valid := (SpecFloat.valid_binary prec emax).

(** A valid finite float has a canonical mantissa and exponent. *)
Lemma valid_canon s m e :
  valid (S754_finite s m e) = true -> canon (Zpos m) e /\ e <= emax - prec.
Proof.
  cbn [SpecFloat.valid_binary]. unfold bounded, canonical_mantissa.
  intros H. apply andb_true_iff in H. destruct H as (Hc & Hb).
  apply Z.eqb_eq in Hc. apply Z.leb_le in Hb.
  pose proof (digits2_pos_bounds m) as Hd.
  set (d := Zpos (digits2_pos m)) in *.
  assert (Hd0 : 0 < d) by (unfold d; lia).
  unfold SpecFloat.fexp in Hc.
  split; [| assumption]. unfold canonical.
  split; [| split; [split |]].
  - lia.
  - lia.
  - assert (2 ^ d <= 2 ^ prec) by (apply Z.pow_le_mono_r; lia). lia.
  - intros Hlt. assert (Hdp : d = prec) by lia. rewrite <- Hdp. lia.
Qed.

Lemma canon_pos m e : canon m e -> 0 < W m e.
Proof.
  intros (He & Hm & _). pose proof (G_le_emin prec emax Hprec Hemax).
  unfold units_of. assert (0 < 2 ^ (e - G)) by (apply Z.pow_pos_nonneg; lia). nia.
Qed.

Lemma canon_lt_top m e : canon m e -> e <= emax - prec -> W m e < 2 ^ (emax - G).
Proof.
  intros Hc He. pose proof (canon_lt_pow prec emax Hprec Hemax m e Hc).
  assert (2 ^ (prec + e - G) <= 2 ^ (emax - G)).
  { apply Z.pow_le_mono_r; [lia |]. lia. }
  lia.
Qed.

Lemma cond_Zopp_0 s : cond_Zopp s 0 = 0.
Proof. now destruct s. Qed.

(** A rounded mantissa either overflows, at [2 ^ emax] or above, or is a
    float of that value. *)
Lemma round_outcome_value s q E :
  0 <= q <= 2 ^ prec -> emin <= E -> (emin < E -> 2 ^ (prec - 1) <= q) ->
  (round_outcome s q E = S754_infinity s /\ 2 ^ (emax - G) <= W q E) \/
  (SFfinite (round_outcome s q E) = true /\ Fv (round_outcome s q E) = cond_Zopp s (W q E)).
Proof.
  intros Hq HE Hnorm. pose proof (G_le_emin prec emax Hprec Hemax) as HG.
  assert (Hemin : emin < emax - prec) by (unfold SpecFloat.emin; lia).
  unfold round_result.
  destruct (Z.eqb_spec q 0) as [Hq0|Hq0].
  - right. split; [reflexivity |]. subst q. cbn [SFunits]. unfold units_of.
    now rewrite Z.mul_0_l, cond_Zopp_0.
  - destruct (Z.eqb_spec q (2 ^ prec)) as [Hqp|Hqp].
    + destruct (Z.leb_spec (E + 1) (emax - prec)) as [Hle|Hgt].
      * right. split; [reflexivity |]. cbn [SFunits].
        assert (Hpos : 0 < 2 ^ (prec - 1)) by (apply Z.pow_pos_nonneg; lia).
        rewrite Z2Pos.id by assumption. f_equal.
        rewrite W_shift by lia. f_equal. rewrite Hqp.
        replace prec with (prec - 1 + 1) at 2 by lia.
        rewrite Z.pow_add_r by lia. reflexivity.
      * left. split; [reflexivity |]. rewrite Hqp, W_pow by lia.
        apply Z.pow_le_mono_r; lia.
    + destruct (Z.leb_spec E (emax - prec)) as [Hle|Hgt].
      * right. split; [reflexivity |]. cbn [SFunits]. rewrite Z2Pos.id by lia. reflexivity.
      * left. split; [reflexivity |].
        assert (H1 : W (2 ^ (prec - 1)) E <= W q E) by (apply W_le; [lia | apply Hnorm; lia]).
        rewrite W_pow in H1 by lia.
        assert (2 ^ (emax - G) <= 2 ^ (prec - 1 + E - G)) by (apply Z.pow_le_mono_r; lia).
        lia.
Qed.

(** Comparison of valid finite floats is comparison of their values. *)
Lemma SFcompare_Fv x y :
  valid x = true -> valid y = true -> SFfinite x = true -> SFfinite y = true ->
  SFcompare x y = Some (Fv x ?= Fv y).
Proof.
  intros Vx Vy Fx Fy.
  destruct x as [sx|sx| |sx mx ex]; try discriminate;
  destruct y as [sy|sy| |sy my ey]; try discriminate; cbn [SFcompare SFunits].
  - reflexivity.
  - apply valid_canon in Vy. destruct Vy as (Cy & _). apply canon_pos in Cy.
    f_equal. destruct sy; cbn [cond_Zopp]; symmetry.
    + apply Z.compare_gt_iff. lia.
    + apply Z.compare_lt_iff. lia.
  - apply valid_canon in Vx. destruct Vx as (Cx & _). apply canon_pos in Cx.
    f_equal. destruct sx; cbn [cond_Zopp]; symmetry.
    + apply Z.compare_lt_iff. lia.
    + apply Z.compare_gt_iff. lia.
  - apply valid_canon in Vx, Vy. destruct Vx as (Cx & _), Vy as (Cy & _).
    pose proof (canon_pos _ _ Cx) as Px. pose proof (canon_pos _ _ Cy) as Py.
    pose proof (G_le_emin prec emax Hprec Hemax) as HG.
    assert (Hord : forall m1 e1 m2 e2, canon m1 e1 -> canon m2 e2 -> e1 < e2 -> W m1 e1 < W m2 e2).
    { intros m1 e1 m2 e2 C1 C2 Hlt.
      pose proof (canon_lt_pow prec emax Hprec Hemax _ _ C1).
      assert (emin < e2) by (destruct C1; lia).
      pose proof (canon_ge_pow prec emax Hprec Hemax _ _ C2 ltac:(assumption)).
      assert (2 ^ (prec + e1 - G) <= 2 ^ (prec - 1 + e2 - G)) by (apply Z.pow_le_mono_r; lia).
      lia. }
    assert (Hsame : (W (Zpos mx) ex ?= W (Zpos my) ey) =
              match ex ?= ey with Lt => Lt | Gt => Gt | Eq => Pos.compare_cont Eq mx my end).
    { destruct (Z.compare_spec ex ey) as [Heq|Hlt|Hgt].
      - subst ey. change (Pos.compare_cont Eq mx my) with (Zpos mx ?= Zpos my).
        destruct (Z.compare_spec (Zpos mx) (Zpos my)) as [H|H|H].
        + rewrite H. apply Z.compare_refl.
        + apply Z.compare_lt_iff. apply W_lt; [destruct Cx; lia | assumption].
        + apply Z.compare_gt_iff. apply W_lt; [destruct Cx; lia | assumption].
      - apply Z.compare_lt_iff. now apply Hord.
      - apply Z.compare_gt_iff. now apply Hord. }
    f_equal. destruct sx, sy; cbn [cond_Zopp].
    + rewrite Z.compare_opp, (Z.compare_antisym (W (Zpos mx) ex) (W (Zpos my) ey)), Hsame.
      destruct (ex ?= ey); reflexivity.
    + symmetry. apply Z.compare_lt_iff. lia.
    + symmetry. apply Z.compare_gt_iff. lia.
    + now rewrite Hsame.
Qed.

Lemma SFleb_Fv x y :
  valid x = true -> valid y = true -> SFfinite x = true -> SFfinite y = true ->
  SFleb x y = (Fv x <=? Fv y).
Proof.
  intros. unfold SFleb. rewrite SFcompare_Fv by assumption.
  unfold Z.leb. destruct (Fv x ?= Fv y); reflexivity.
Qed.

Lemma SFltb_Fv x y :
  valid x = true -> valid y = true -> SFfinite x = true -> SFfinite y = true ->
  SFltb x y = (Fv x <? Fv y).
Proof.
  intros. unfold SFltb. rewrite SFcompare_Fv by assumption.
  unfold Z.ltb. destruct (Fv x ?= Fv y); reflexivity.
Qed.


Lemma Pos_iter_xO m d : Zpos (Pos.iter xO m d) = Zpos m * 2 ^ Zpos d.
Proof.
  induction d as [|d IH] using Pos.peano_ind.
  - cbn [Pos.iter]. rewrite Pos2Z.inj_xO. rewrite Z.pow_1_r. lia.
  - rewrite Pos.iter_succ, Pos2Z.inj_xO, IH, Pos2Z.inj_succ, Z.pow_succ_r by lia. ring.
Qed.

Lemma shl_align_spec mx ex ex' :
  snd (shl_align mx ex ex') = Z.min ex ex' /\
  Zpos (fst (shl_align mx ex ex')) = Zpos mx * 2 ^ (ex - Z.min ex ex').
Proof.
  unfold shl_align. destruct (ex' - ex)%Z as [|d|d] eqn:Hd; cbn [fst snd].
  - replace (Z.min ex ex') with ex by lia. rewrite Z.sub_diag. split; lia.
  - replace (Z.min ex ex') with ex by lia. rewrite Z.sub_diag. split; lia.
  - replace (Z.min ex ex') with ex' by lia. split; [reflexivity |].
    rewrite Pos_iter_xO. f_equal. f_equal. lia.
Qed.

Lemma Zdigits2_shift m k :
  0 <= k -> Zdigits2 (Zpos m * 2 ^ k) = Zpos (digits2_pos m) + k.
Proof.
  intros Hk. pose proof (digits2_pos_bounds m) as Hd.
  assert (H2k : 0 < 2 ^ k) by (apply Z.pow_pos_nonneg; lia).
  apply Zdigits2_unique; [| nia].
  replace (Zpos (digits2_pos m) + k - 1) with (Zpos (digits2_pos m) - 1 + k) by lia.
  rewrite !Z.pow_add_r by lia. nia.
Qed.

Lemma binary_round_aux_rounds s m e lo :
  G <= e -> lo <= e -> e <= fexp (Zpos (digits2_pos m) + e) ->
  rounds s (W (Zpos m) e) (binary_round_aux prec emax s (Zpos m) e loc_Exact) lo.
Proof.
  intros HG Hlo Hn.
  exists (Zpos m), e, (fexp (Zpos (digits2_pos m) + e) - e).
  repeat match goal with |- _ /\ _ => split end; try lia.
  - cbn [Zdigits2]. lia.
  - rewrite binary_round_aux_char by first [assumption | lia]. reflexivity.
Qed.

(** [binary_round] aligns the mantissa to the exponent of the format and
    rounds; the value is unchanged by the alignment. *)
Lemma binary_round_rounds s m e :
  emin <= e -> rounds s (W (Zpos m) e) (binary_round prec emax s m e) emin.
Proof.
  intros He. pose proof (G_le_emin prec emax Hprec Hemax) as HG.
  unfold binary_round.
  pose proof (shl_align_spec m e (fexp (Zpos (digits2_pos m) + e))) as (Hez & Hmz).
  destruct (shl_align m e (fexp (Zpos (digits2_pos m) + e))) as [mz ez].
  cbn [fst snd] in Hez, Hmz.
  pose proof (fexp_ge_emin prec emax (Zpos (digits2_pos m) + e)) as Hf.
  assert (Hval : W (Zpos mz) ez = W (Zpos m) e).
  { rewrite Hmz, <- W_shift by lia. f_equal. lia. }
  rewrite <- Hval.
  apply binary_round_aux_rounds; try lia.
  assert (Hdig : Zpos (digits2_pos mz) + ez = Zpos (digits2_pos m) + e).
  { change (Zpos (digits2_pos mz)) with (Zdigits2 (Zpos mz)).
    rewrite Hmz, Zdigits2_shift by lia. lia. }
  rewrite Hdig. lia.
Qed.

Lemma digits2_pos_mul_l mx my :
  Zpos (digits2_pos mx) <= Zpos (digits2_pos (mx * my)).
Proof.
  pose proof (digits2_pos_bounds mx) as Hx.
  pose proof (digits2_pos_bounds (mx * my)) as Hxy.
  rewrite Pos2Z.inj_mul in Hxy.
  destruct (Z.le_gt_cases (Zpos (digits2_pos mx)) (Zpos (digits2_pos (mx * my)))) as [|Hgt];
    [assumption |].
  assert (2 ^ Zpos (digits2_pos (mx * my)) <= 2 ^ (Zpos (digits2_pos mx) - 1))
    by (apply Z.pow_le_mono_r; lia).
  nia.
Qed.

(** The product of two finite floats is the rounding of the exact product
    of the mantissas. *)
Lemma SFmul_rounds sx mx ex sy my ey :
  valid (S754_finite sx mx ex) = true -> valid (S754_finite sy my ey) = true ->
  rounds (xorb sx sy) (W (Zpos mx * Zpos my) (ex + ey))
    (SFmul prec emax (S754_finite sx mx ex) (S754_finite sy my ey)) G.
Proof.
  intros Vx Vy. cbn [SFmul]. rewrite <- Pos2Z.inj_mul.
  pose proof (digits2_pos_mul_l mx my) as Hdx.
  pose proof (digits2_pos_mul_l my mx) as Hdy. rewrite (Pos.mul_comm my mx) in Hdy.
  cbn [SpecFloat.valid_binary] in Vx, Vy. unfold bounded, canonical_mantissa in Vx, Vy.
  apply andb_true_iff in Vx, Vy. destruct Vx as (Cx & _), Vy as (Cy & _).
  apply Z.eqb_eq in Cx, Cy.
  assert (Hemin : emin < 0) by (apply emin_neg; assumption).
  apply binary_round_aux_rounds.
  - unfold unit_exp. unfold SpecFloat.fexp in Cx, Cy. lia.
  - unfold unit_exp. unfold SpecFloat.fexp in Cx, Cy. lia.
  - unfold SpecFloat.fexp in *. lia.
Qed.

Lemma W_plus a b e : W (a + b) e = W a e + W b e.
Proof. unfold units_of. ring. Qed.

Lemma W_cond_Zopp s a e : W (cond_Zopp s a) e = cond_Zopp s (W a e).
Proof. destruct s; cbn [cond_Zopp]; unfold units_of; ring. Qed.

(** The sum of two finite floats is zero when their exact sum is, and the
    rounding of the exact sum with its sign otherwise. *)
Lemma SFadd_finite sx mx ex sy my ey :
  valid (S754_finite sx mx ex) = true -> valid (S754_finite sy my ey) = true ->
  let S := Fv (S754_finite sx mx ex) + Fv (S754_finite sy my ey) in
  let R := SFadd prec emax (S754_finite sx mx ex) (S754_finite sy my ey) in
  (S = 0 /\ R = S754_zero false) \/
  (0 < S /\ rounds false S R emin) \/
  (S < 0 /\ rounds true (- S) R emin).
Proof.
  intros Vx Vy S R. pose proof (G_le_emin prec emax Hprec Hemax) as HG.
  apply valid_canon in Vx, Vy. destruct Vx as ((Hex & _) & _), Vy as ((Hey & _) & _).
  unfold R, S. cbn [SFadd SFunits].
  pose proof (shl_align_spec mx ex (Z.min ex ey)) as (_ & Hmx).
  pose proof (shl_align_spec my ey (Z.min ex ey)) as (_ & Hmy).
  rewrite Hmx, Hmy.
  replace (Z.min ex (Z.min ex ey)) with (Z.min ex ey) by lia.
  replace (Z.min ey (Z.min ex ey)) with (Z.min ex ey) by lia.
  set (ez := Z.min ex ey).
  assert (Hez : emin <= ez) by (unfold ez; lia).
  assert (Hsum : W (cond_Zopp sx (Zpos mx * 2 ^ (ex - ez)) + cond_Zopp sy (Zpos my * 2 ^ (ey - ez))) ez
                 = cond_Zopp sx (W (Zpos mx) ex) + cond_Zopp sy (W (Zpos my) ey)).
  { rewrite W_plus, !W_cond_Zopp, <- !W_shift by (unfold ez; lia).
    replace (ez + (ex - ez)) with ex by lia. replace (ez + (ey - ez)) with ey by lia.
    reflexivity. }
  rewrite <- Hsum.
  destruct (cond_Zopp sx (Zpos mx * 2 ^ (ex - ez)) + cond_Zopp sy (Zpos my * 2 ^ (ey - ez)))
    as [|p|p]; cbn [binary_normalize].
  - left. split; [unfold units_of; ring | reflexivity].
  - right. left. split.
    + unfold units_of. assert (0 < 2 ^ (ez - G)) by (apply Z.pow_pos_nonneg; lia). nia.
    + now apply binary_round_rounds.
  - right. right. split.
    + unfold units_of. assert (0 < 2 ^ (ez - G)) by (apply Z.pow_pos_nonneg; lia). nia.
    + replace (- W (Zneg p) ez) with (W (Zpos p) ez) by (unfold units_of; lia).
      now apply binary_round_rounds.
Qed.


(** What a rounding gives: an infinity of the sign, or a float whose
    magnitude is the mantissa rounded to nearest even. *)
Lemma rounds_inv s X R lo :
  rounds s X R lo ->
  exists m e n,
    (0 < m /\ G <= e /\ lo <= e /\ 0 <= n /\ e + n = fexp (Zdigits2 m + e)) /\
    X = W m e /\ 0 < X /\ 0 <= nearest_even m n /\
    ((R = S754_infinity s /\ 2 ^ (emax - G) <= W (nearest_even m n) (e + n)) \/
     (SFfinite R = true /\ Fv R = cond_Zopp s (W (nearest_even m n) (e + n)) /\
      mag R = W (nearest_even m n) (e + n))).
Proof.
  intros (m & e & n & Hm & He & Hlo & Hn & HE & HX & HR).
  exists m, e, n. split; [repeat split; assumption |]. split; [assumption |].
  assert (H2n : 0 < 2 ^ n) by (apply Z.pow_pos_nonneg; lia).
  assert (HXpos : 0 < X).
  { subst X. unfold units_of. assert (0 < 2 ^ (e - G)) by (apply Z.pow_pos_nonneg; lia). nia. }
  split; [assumption |].
  destruct (rne_bounds m n Hn) as (Hq & _).
  assert (Hq0 : 0 <= m / 2 ^ n) by (apply Z.div_pos; lia).
  assert (Hup : m < 2 ^ (n + prec)) by (eapply data_upper; eassumption).
  assert (Hqlt : m / 2 ^ n < 2 ^ prec).
  { apply Z.div_lt_upper_bound; [lia |]. rewrite <- Z.pow_add_r by lia. assumption. }
  assert (HEm : emin <= e + n) by (eapply data_emin; eassumption).
  split; [lia |].
  assert (Hnorm : emin < e + n -> 2 ^ (prec - 1) <= nearest_even m n).
  { intros Hlt. assert (2 ^ (prec - 1) <= m / 2 ^ n) by (eapply data_floor_lower; eassumption). lia. }
  destruct (round_outcome_value s (nearest_even m n) (e + n)) as [(Hinf & Hbig)|(Hfin & Hval)];
    try assumption; try lia.
  - left. subst R. split; assumption.
  - right. subst R. split; [assumption |]. split; [assumption |].
    unfold SFmag. rewrite Hval.
    assert (0 <= W (nearest_even m n) (e + n)).
    { unfold units_of. pose proof (G_le_emin prec emax Hprec Hemax).
      assert (0 < 2 ^ (e + n - G)) by (apply Z.pow_pos_nonneg; lia). nia. }
    destruct s; cbn [cond_Zopp]; lia.
Qed.

Lemma rounds_sign s X R lo :
  rounds s X R lo -> SFfinite R = true -> Fv R = cond_Zopp s (mag R).
Proof.
  intros HR HF. apply rounds_inv in HR.
  destruct HR as (m & e & n & _ & _ & _ & _ & [(Hinf & _)|(_ & Hv & Hm)]).
  - subst R. discriminate.
  - now rewrite Hm.
Qed.

(** Rounding is monotone against floats: a value below a float is rounded
    to a float not above it, and a value above a float is not rounded below
    it. *)
Lemma rounds_le_float s X R lo mf ef :
  rounds s X R lo -> canon mf ef -> ef <= emax - prec -> X <= W mf ef ->
  SFfinite R = true /\ mag R <= W mf ef.
Proof.
  intros HR Hc Hef Hle. apply rounds_inv in HR.
  destruct HR as (m & e & n & (Hm & He & Hlo & Hn & HE) & HX & _ & _ & Hcase).
  subst X.
  assert (Hb : W (nearest_even m n) (e + n) <= W mf ef) by (eapply rne_le_float; eassumption).
  pose proof (canon_lt_top mf ef Hc Hef) as Htop.
  destruct Hcase as [(_ & Hbig)|(Hfin & _ & Hmag)]; [lia |].
  split; [assumption | lia].
Qed.

Lemma rounds_ge_float s X R lo mf ef :
  rounds s X R lo -> SFfinite R = true -> canon mf ef -> W mf ef <= X ->
  W mf ef <= mag R.
Proof.
  intros HR HF Hc Hle. apply rounds_inv in HR.
  destruct HR as (m & e & n & (Hm & He & Hlo & Hn & HE) & HX & _ & _ & Hcase).
  subst X.
  assert (Hb : W mf ef <= W (m / 2 ^ n) (e + n)) by (eapply floor_ge_float; eassumption).
  destruct (rne_bounds m n Hn) as (Hq & _).
  assert (HEm : emin <= e + n) by (eapply data_emin; eassumption).
  pose proof (G_le_emin prec emax Hprec Hemax) as HG.
  assert (W (m / 2 ^ n) (e + n) <= W (nearest_even m n) (e + n)) by (apply W_le; lia).
  destruct Hcase as [(Hinf & _)|(_ & _ & Hmag)]; [subst R; discriminate | lia].
Qed.

(** A sum of two floats that is rounded up lands one step of its grid above
    a normal float that is not above the exact sum. *)
Lemma rounds_up_shape s X R lo :
  rounds s X R lo -> emin <= lo -> SFfinite R = true ->
  mag R <= X \/
  exists q E, canon q E /\ emin < E /\ W q E <= X /\ mag R = W (q + 1) E.
Proof.
  intros HR Hlo' HF. apply rounds_inv in HR.
  destruct HR as (m & e & n & (Hm & He & Hlo & Hn & HE) & HX & _ & _ & Hcase).
  subst X.
  destruct Hcase as [(Hinf & _)|(_ & _ & Hmag)]; [subst R; discriminate |].
  rewrite Hmag.
  assert (H2n : 0 < 2 ^ n) by (apply Z.pow_pos_nonneg; lia).
  destruct (rne_bounds m n Hn) as (Hq & Hdown & _).
  assert (Hfl : W (m / 2 ^ n) (e + n) <= W m e) by (eapply data_floor_le; eassumption).
  destruct (Z.eq_dec (nearest_even m n) (m / 2 ^ n)) as [Heq|Hne].
  - left. now rewrite Heq.
  - right. assert (Hq1 : nearest_even m n = m / 2 ^ n + 1) by lia.
    assert (Hn0 : 0 < n).
    { destruct (Z.eq_dec n 0) as [Hz|]; [| lia]. exfalso. apply Hne, Hdown.
      subst n. rewrite Z.pow_0_r, Z.mod_1_r. lia. }
    assert (HEm : emin < e + n) by lia.
    exists (m / 2 ^ n), (e + n). rewrite Hq1.
    assert (Hlow : 2 ^ (prec - 1) <= m / 2 ^ n) by (eapply data_floor_lower; eassumption).
    assert (Hup : m < 2 ^ (n + prec)) by (eapply data_upper; eassumption).
    assert (Hqlt : m / 2 ^ n < 2 ^ prec).
    { apply Z.div_lt_upper_bound; [lia |]. rewrite <- Z.pow_add_r by lia. assumption. }
    assert (0 < 2 ^ (prec - 1)) by (apply Z.pow_pos_nonneg; lia).
    split; [| split; [assumption | split; [assumption | reflexivity]]].
    unfold canonical. split; [lia |]. split; [lia |]. intros _. assumption.
Qed.

(** Below the midpoint of a normal float and its successor on the grid, a
    value is not rounded above that float. *)
Lemma rounds_below_mid s X R lo q E :
  rounds s X R lo -> SFfinite R = true -> canon q E -> 2 * X < W (2 * q + 1) E ->
  mag R <= W q E.
Proof.
  intros HR HF Hc Hmid. pose proof HR as HR'. apply rounds_inv in HR.
  destruct HR as (m & e & n & (Hm & He & Hlo & Hn & HE) & HX & HXpos & Hr0 & Hcase).
  destruct Hcase as [(Hinf & _)|(_ & _ & Hmag)]; [subst R; discriminate |].
  pose proof (G_le_emin prec emax Hprec Hemax) as HG.
  assert (HEm : emin <= e + n) by (eapply data_emin; eassumption).
  destruct (Z.le_gt_cases X (W q E)) as [Hle|Hgt].
  - (* the float itself is not below the value *)
    rewrite Hmag. subst X. eapply rne_le_float; eassumption.
  - assert (HcE : emin <= E) by (destruct Hc; assumption).
    assert (HW1 : W (2 * q + 1) E = 2 * W q E + W 1 E) by (unfold units_of; ring).
    assert (HU : 0 < W 1 E).
    { unfold units_of. assert (0 < 2 ^ (E - G)) by (apply Z.pow_pos_nonneg; lia). lia. }
    destruct (Z.lt_trichotomy (e + n) E) as [Hlt|[Heq|Hgt']].
    + exfalso.
      assert (Hup : m < 2 ^ (n + prec)) by (eapply data_upper; eassumption).
      assert (HXup : X < W (2 ^ (n + prec)) e) by (subst X; apply W_lt; assumption).
      rewrite W_pow in HXup by lia.
      pose proof (canon_ge_pow prec emax Hprec Hemax q E Hc ltac:(lia)) as Hqlow.
      assert (2 ^ (n + prec + e - G) <= 2 ^ (prec - 1 + E - G)) by (apply Z.pow_le_mono_r; lia).
      lia.
    + rewrite Hmag. subst E. apply W_le; [lia |].
      assert (nearest_even m n <= (q + 1) - 1); [| lia].
      eapply rne_below_mid with (e := e); try eassumption.
      replace (2 * (q + 1) - 1) with (2 * q + 1) by lia. now subst X.
    + exfalso.
      assert (Hlow : 2 ^ (n + prec - 1) <= m) by (eapply data_lower; try eassumption; lia).
      assert (HXlow : W (2 ^ (n + prec - 1)) e <= X) by (subst X; apply W_le; assumption).
      rewrite W_pow in HXlow by lia.
      assert (Hq : q + 1 <= 2 ^ prec) by (destruct Hc as (_ & ? & _); lia).
      assert (Hq' : W (q + 1) E <= W (2 ^ prec) E) by (apply W_le; lia).
      rewrite W_pow in Hq' by lia.
      assert (HW2 : W (q + 1) E = W q E + W 1 E) by (unfold units_of; ring).
      assert (2 ^ (prec + E - G) <= 2 ^ (n + prec - 1 + e - G)) by (apply Z.pow_le_mono_r; lia).
      lia.
Qed.


Lemma valid_pos x :
  valid x = true -> 0 < Fv x ->
  exists m e, x = S754_finite false m e /\ canon (Zpos m) e /\ e <= emax - prec.
Proof.
  intros V H. destruct x as [sx|sx| |sx mx ex]; cbn [SFunits] in H; try lia.
  apply valid_canon in V. destruct V as (C & B). pose proof (canon_pos _ _ C).
  destruct sx; cbn [cond_Zopp] in H; [lia |]. now exists mx, ex.
Qed.

Lemma valid_neg x :
  valid x = true -> Fv x < 0 ->
  exists m e, x = S754_finite true m e /\ canon (Zpos m) e /\ e <= emax - prec.
Proof.
  intros V H. destruct x as [sx|sx| |sx mx ex]; cbn [SFunits] in H; try lia.
  apply valid_canon in V. destruct V as (C & B). pose proof (canon_pos _ _ C).
  destruct sx; cbn [cond_Zopp] in H; [| lia]. now exists mx, ex.
Qed.

Lemma SFopp_valid x : valid (SFopp x) = valid x.
Proof. now destruct x. Qed.

Lemma SFopp_fin x : SFfinite (SFopp x) = SFfinite x.
Proof. now destruct x. Qed.

Lemma SFopp_Fv x : Fv (SFopp x) = - Fv x.
Proof.
  destruct x as [sx|sx| |sx mx ex]; cbn [SFopp SFunits]; try reflexivity.
  destruct sx; cbn [negb cond_Zopp]; lia.
Qed.

(** Subtraction is addition of the opposite. *)
Lemma SFsub_as_add x y : SFsub prec emax x y = SFadd prec emax x (SFopp y).
Proof.
  destruct x as [[]|[]| |sx mx ex], y as [[]|[]| |sy my ey];
    cbn [SFsub SFadd SFopp]; try reflexivity.
  f_equal. destruct sy; cbn [negb cond_Zopp]; lia.
Qed.

Lemma SFsub_fin_inv x y : SFfinite (SFsub prec emax x y) = true -> SFfinite x = true /\ SFfinite y = true.
Proof.
  destruct x as [[]|[]| |sx mx ex], y as [[]|[]| |sy my ey]; cbn [SFsub SFfinite];
    try discriminate; try (split; reflexivity).
Qed.

Lemma SFadd_spec x y :
  valid x = true -> valid y = true -> SFfinite x = true -> SFfinite y = true ->
  (SFfinite (SFadd prec emax x y) = true /\ Fv (SFadd prec emax x y) = Fv x + Fv y) \/
  (0 < Fv x + Fv y /\ rounds false (Fv x + Fv y) (SFadd prec emax x y) emin) \/
  (Fv x + Fv y < 0 /\ rounds true (- (Fv x + Fv y)) (SFadd prec emax x y) emin).
Proof.
  intros Vx Vy Fx Fy.
  destruct x as [sx|sx| |sx mx ex]; try discriminate;
  destruct y as [sy|sy| |sy my ey]; try discriminate.
  - left. destruct sx, sy; split; reflexivity.
  - left. split; reflexivity.
  - left. split; [reflexivity |]. cbn [SFadd SFunits]. lia.
  - destruct (SFadd_finite sx mx ex sy my ey Vx Vy) as [(H0 & HR)|[H|H]].
    + left. rewrite HR, H0. split; reflexivity.
    + right. left. exact H.
    + right. right. exact H.
Qed.

Lemma SFmul_spec x y :
  valid x = true -> valid y = true -> SFfinite x = true -> SFfinite y = true -> 0 <= Fv y ->
  (SFfinite (SFmul prec emax x y) = true /\ Fv (SFmul prec emax x y) = 0) \/
  (0 < Fv y /\ Fv x <> 0 /\
   exists X, rounds (Fv x <? 0) X (SFmul prec emax x y) G /\ X * 2 ^ (- G) = mag x * Fv y).
Proof.
  intros Vx Vy Fx Fy Hy.
  destruct x as [sx|sx| |sx mx ex]; try discriminate;
  destruct y as [sy|sy| |sy my ey]; try discriminate;
    try (left; split; reflexivity).
  right.
  pose proof (SFmul_rounds sx mx ex sy my ey Vx Vy) as HR.
  apply valid_canon in Vx, Vy. destruct Vx as (Cx & _), Vy as (Cy & _).
  pose proof (canon_pos _ _ Cx) as Px. pose proof (canon_pos _ _ Cy) as Py.
  cbn [SFunits] in Hy |- *.
  destruct sy; cbn [cond_Zopp] in Hy |- *; [lia |].
  split; [assumption |].
  assert (Hsx : (cond_Zopp sx (W (Zpos mx) ex) <? 0) = sx).
  { destruct sx; cbn [cond_Zopp]; [apply Z.ltb_lt | apply Z.ltb_ge]; lia. }
  split; [destruct sx; cbn [cond_Zopp]; lia |].
  exists (W (Zpos mx * Zpos my) (ex + ey)).
  rewrite Hsx. replace (xorb sx false) with sx in HR by now destruct sx.
  split; [exact HR |].
  unfold SFmag. cbn [SFunits].
  replace (Z.abs (cond_Zopp sx (W (Zpos mx) ex))) with (W (Zpos mx) ex)
    by (destruct sx; cbn [cond_Zopp]; lia).
  pose proof (G_le_emin prec emax Hprec Hemax) as HG.
  assert (Hemin : emin < 0) by (apply emin_neg; assumption).
  destruct Cx as (Hex & _), Cy as (Hey & _).
  unfold units_of.
  replace (ex + ey - G) with ((ex - G) + (ey - G) - (- G)) by lia.
  assert (Hsplit : 2 ^ (ex - G) * 2 ^ (ey - G) = 2 ^ (ex - G + (ey - G) - - G) * 2 ^ (- G)).
  { rewrite <- !Z.pow_add_r by (unfold unit_exp in *; lia). f_equal. lia. }
  nia.
Qed.

(** A float in [0, 1) is at most [1 - 2 ^ (- prec)]. *)
Lemma below_one_cap u :
  valid u = true -> 0 < Fv u < 2 ^ (- G) ->
  Fv u * 2 ^ prec <= (2 ^ prec - 1) * 2 ^ (- G).
Proof.
  intros V (Hpos & Hlt).
  destruct (valid_pos u V Hpos) as (m & e & -> & C & _).
  cbn [SFunits cond_Zopp] in *. destruct C as (He & Hm & _).
  pose proof (G_le_emin prec emax Hprec Hemax) as HG.
  assert (HG0 : G < 0) by (pose proof (emin_neg prec emax Hprec Hemax); lia).
  unfold units_of in *.
  assert (Hpe : 0 < 2 ^ (e - G)) by (apply Z.pow_pos_nonneg; lia).
  assert (Hp : 0 < 2 ^ prec) by (apply Z.pow_pos_nonneg; lia).
  assert (He0 : e < 0).
  { destruct (Z.lt_ge_cases e 0) as [|Hge]; [assumption | exfalso].
    assert (2 ^ (- G) <= 2 ^ (e - G)) by (apply Z.pow_le_mono_r; lia). nia. }
  assert (Hsplit : 2 ^ (- G) = 2 ^ (e - G) * 2 ^ (- e)).
  { rewrite <- Z.pow_add_r by lia. f_equal. lia. }
  assert (Hpne : 0 < 2 ^ (- e)) by (apply Z.pow_pos_nonneg; lia).
  rewrite Hsplit in Hlt |- *.
  assert (Hm1 : Zpos m < 2 ^ (- e)) by nia.
  assert (Hgoal : Zpos m * 2 ^ prec <= (2 ^ prec - 1) * 2 ^ (- e)).
  { destruct (Z.le_gt_cases (- e) prec) as [Hle|Hgt].
    - assert (2 ^ (- e) <= 2 ^ prec) by (apply Z.pow_le_mono_r; lia). nia.
    - assert (2 * 2 ^ prec <= 2 ^ (- e)).
      { replace (2 * 2 ^ prec) with (2 ^ (prec + 1)) by (rewrite Z.pow_add_r by lia; lia).
        apply Z.pow_le_mono_r; lia. }
      nia. }
  nia.
Qed.

Section Scaled.
Variables d u : spec_float.
Hypothesis Vd : valid d = true.
Hypothesis Vu : valid u = true.
Hypothesis Fd : SFfinite d = true.
Hypothesis Fu : SFfinite u = true.
Hypothesis Hu : 0 <= Fv u < 2 ^ (- G).

(** Scaling by a float of [0, 1) does not enlarge a float and keeps its sign. *)
Lemma SFmul_shrinks :
  SFfinite (SFmul prec emax d u) = true /\
  mag (SFmul prec emax d u) <= mag d /\
  (0 <= Fv d -> 0 <= Fv (SFmul prec emax d u)) /\
  (Fv d <= 0 -> Fv (SFmul prec emax d u) <= 0).
Proof.
  destruct (SFmul_spec d u Vd Vu Fd Fu ltac:(lia)) as [(HF & H0)|(Hupos & Hd0 & X & HR & HX)].
  - split; [assumption |]. unfold SFmag. rewrite H0. lia.
  - assert (Hg : 0 < 2 ^ (- G)) by (apply Z.pow_pos_nonneg; unfold unit_exp, SpecFloat.emin; lia).
    assert (Hmd : 0 < mag d) by (unfold SFmag; lia).
    assert (HXle : X <= mag d) by nia.
    assert (Hcan : exists m e, canon m e /\ e <= emax - prec /\ mag d = W m e).
    { destruct (Z.lt_trichotomy (Fv d) 0) as [Hneg|[|Hpos]]; [| lia |].
      - destruct (valid_neg d Vd Hneg) as (m & e & -> & C & B). exists (Zpos m), e.
        pose proof (canon_pos _ _ C). repeat split; try assumption; try apply C.
        unfold SFmag. cbn [SFunits cond_Zopp]. lia.
      - destruct (valid_pos d Vd Hpos) as (m & e & -> & C & B). exists (Zpos m), e.
        pose proof (canon_pos _ _ C). repeat split; try assumption; try apply C.
        unfold SFmag. cbn [SFunits cond_Zopp]. lia. }
    destruct Hcan as (m & e & C & B & Hm).
    destruct (rounds_le_float _ _ _ _ m e HR C B ltac:(lia)) as (HF & Hle).
    split; [assumption |]. split; [lia |].
    pose proof (rounds_sign _ _ _ _ HR HF) as Hs.
    assert (0 <= mag (SFmul prec emax d u)) by (unfold SFmag; lia).
    split; intros Hsgn.
    + assert (Hb : (Fv d <? 0) = false) by (apply Z.ltb_ge; lia).
      rewrite Hb in Hs. cbn [cond_Zopp] in Hs. lia.
    + assert (Hb : (Fv d <? 0) = true) by (apply Z.ltb_lt; lia).
      rewrite Hb in Hs. cbn [cond_Zopp] in Hs. lia.
Qed.

(** When the scaled float is one grid step above a normal float, the product
    is not above that float. *)
Lemma SFmul_below_step q E :
  canon q E -> emin < E -> mag d = W (q + 1) E ->
  mag (SFmul prec emax d u) <= W q E.
Proof.
  intros C HE Hd.
  destruct SFmul_shrinks as (HF & _).
  pose proof (canon_pos _ _ C) as Pq.
  destruct (SFmul_spec d u Vd Vu Fd Fu ltac:(lia)) as [(_ & H0)|(Hupos & Hd0 & X & HR & HX)].
  - unfold SFmag. rewrite H0. cbn. lia.
  - eapply rounds_below_mid; try eassumption.
    pose proof (below_one_cap u Vu ltac:(lia)) as Hcap.
    assert (Hg : 0 < 2 ^ (- G)) by (apply Z.pow_pos_nonneg; unfold unit_exp, SpecFloat.emin; lia).
    assert (Hp : 0 < 2 ^ prec) by (apply Z.pow_pos_nonneg; lia).
    assert (Hhalf : 2 ^ prec = 2 * 2 ^ (prec - 1)).
    { replace prec with (prec - 1 + 1) at 1 by lia. rewrite Z.pow_add_r by lia. lia. }
    assert (Hq : 2 ^ prec < 2 * (q + 1)) by (destruct C as (_ & _ & Hn); specialize (Hn HE); lia).
    pose proof (G_le_emin prec emax Hprec Hemax) as HG.
    assert (HU : 0 < 2 ^ (E - G)) by (apply Z.pow_pos_nonneg; lia).
    rewrite Hd in HX. unfold units_of in *.
    set (U := 2 ^ (E - G)) in *. set (g := 2 ^ (- G)) in *. set (P := 2 ^ prec) in *.
    set (v := Fv u) in *. clearbody U g P v.
    assert (H1 : X * g * P <= (q + 1) * U * ((P - 1) * g)).
    { rewrite HX. rewrite <- !Z.mul_assoc. apply Z.mul_le_mono_nonneg_l; [lia |].
      apply Z.mul_le_mono_nonneg_l; [lia |]. lia. }
    assert (H2 : X * P <= (q + 1) * U * (P - 1)) by nia.
    assert (H3 : (q + 1) * U * (P - 1) * 2 < (2 * q + 1) * U * P) by nia.
    nia.
Qed.

End Scaled.

(** A sum of two floats whose exact value lies between two floats is rounded
    to a float between them. *)
Lemma SFadd_sandwich x y lo hi :
  valid x = true -> valid y = true -> SFfinite x = true -> SFfinite y = true ->
  valid lo = true -> valid hi = true ->
  Fv lo <= Fv x + Fv y <= Fv hi ->
  SFfinite (SFadd prec emax x y) = true /\
  Fv lo <= Fv (SFadd prec emax x y) <= Fv hi.
Proof.
  intros Vx Vy Fx Fy Vlo Vhi (Hlo & Hhi).
  destruct (SFadd_spec x y Vx Vy Fx Fy) as [(HF & HV)|[(Hpos & HR)|(Hneg & HR)]].
  - split; [assumption | lia].
  - destruct (valid_pos hi Vhi ltac:(lia)) as (mh & eh & Ehi & Ch & Bh).
    assert (Hhi' : Fv x + Fv y <= W (Zpos mh) eh) by (rewrite Ehi in Hhi; exact Hhi).
    destruct (rounds_le_float _ _ _ _ _ _ HR Ch Bh Hhi') as (HF & Hle).
    pose proof (rounds_sign _ _ _ _ HR HF) as Hs. cbn [cond_Zopp] in Hs.
    assert (0 <= mag (SFadd prec emax x y)) by (unfold SFmag; lia).
    split; [assumption |]. split.
    + destruct (Z.le_gt_cases (Fv lo) 0) as [|Hlpos]; [lia |].
      destruct (valid_pos lo Vlo Hlpos) as (ml & el & Elo & Cl & _).
      assert (Hlo' : W (Zpos ml) el <= Fv x + Fv y) by (rewrite Elo in Hlo; exact Hlo).
      pose proof (rounds_ge_float _ _ _ _ _ _ HR HF Cl Hlo') as Hge.
      rewrite Elo. cbn [SFunits cond_Zopp]. lia.
    + rewrite Ehi. cbn [SFunits cond_Zopp]. lia.
  - destruct (valid_neg lo Vlo ltac:(lia)) as (ml & el & Elo & Cl & Bl).
    assert (Hlo' : - (Fv x + Fv y) <= W (Zpos ml) el)
      by (rewrite Elo in Hlo; cbn [SFunits cond_Zopp] in Hlo; lia).
    destruct (rounds_le_float _ _ _ _ _ _ HR Cl Bl Hlo') as (HF & Hle).
    pose proof (rounds_sign _ _ _ _ HR HF) as Hs. cbn [cond_Zopp] in Hs.
    assert (0 <= mag (SFadd prec emax x y)) by (unfold SFmag; lia).
    split; [assumption |]. split.
    + rewrite Elo. cbn [SFunits cond_Zopp]. lia.
    + destruct (Z.le_gt_cases 0 (Fv hi)) as [|Hhneg]; [lia |].
      destruct (valid_neg hi Vhi Hhneg) as (mh & eh & Ehi & Ch & _).
      assert (Hhi' : W (Zpos mh) eh <= - (Fv x + Fv y))
        by (rewrite Ehi in Hhi; cbn [SFunits cond_Zopp] in Hhi; lia).
      pose proof (rounds_ge_float _ _ _ _ _ _ HR HF Ch Hhi') as Hge.
      rewrite Ehi. cbn [SFunits cond_Zopp]. lia.
Qed.

(** The scaled difference lies between zero and the exact difference. *)
Lemma scaled_difference_between a b u :
  valid a = true -> valid b = true -> valid u = true ->
  valid (SFsub prec emax b a) = true ->
  SFfinite (SFsub prec emax b a) = true -> SFfinite u = true -> 0 <= Fv u < 2 ^ (- G) ->
  let p := SFmul prec emax (SFsub prec emax b a) u in
  SFfinite p = true /\
  (0 <= Fv b - Fv a -> 0 <= Fv p <= Fv b - Fv a) /\
  (Fv b - Fv a <= 0 -> Fv b - Fv a <= Fv p <= 0).
Proof.
  intros Va Vb Vu Vd Fd Fu Hu p.
  destruct (SFsub_fin_inv _ _ Fd) as (Fb & Fa).
  destruct (SFmul_shrinks _ u Vd Vu Fd Fu Hu) as (Fp & Hmag & Hpos & Hneg).
  fold p in Fp, Hmag, Hpos, Hneg.
  split; [assumption |].
  pose proof (SFmul_below_step _ u Vd Vu Fd Fu Hu) as Hstep. fold p in Hstep.
  rewrite SFsub_as_add in *.
  destruct (SFadd_spec b (SFopp a)) as [(_ & HV)|[(HT & HR)|(HT & HR)]];
    rewrite ?SFopp_valid, ?SFopp_fin; try assumption;
    rewrite SFopp_Fv in *.
  - unfold SFmag in Hmag. rewrite HV in *. split; intros; split; lia.
  - pose proof (rounds_sign _ _ _ _ HR Fd) as Hs. cbn [cond_Zopp] in Hs.
    assert (0 <= mag (SFadd prec emax b (SFopp a))) by (unfold SFmag; lia).
    assert (0 <= mag p) by (unfold SFmag; lia).
    assert (Hp : Fv p = mag p) by (unfold SFmag in *; lia).
    split; [| lia]. intros _. split; [lia |].
    destruct (rounds_up_shape _ _ _ _ HR ltac:(lia) Fd) as [Hle|(q & E & C & HE & Hq & Hd)].
    + lia.
    + specialize (Hstep q E C HE Hd). lia.
  - pose proof (rounds_sign _ _ _ _ HR Fd) as Hs. cbn [cond_Zopp] in Hs.
    assert (0 <= mag (SFadd prec emax b (SFopp a))) by (unfold SFmag; lia).
    assert (0 <= mag p) by (unfold SFmag; lia).
    assert (Hp : Fv p = - mag p) by (unfold SFmag in *; lia).
    split; [lia |]. intros _. split; [| lia].
    destruct (rounds_up_shape _ _ _ _ HR ltac:(lia) Fd) as [Hle|(q & E & C & HE & Hq & Hd)].
    + lia.
    + specialize (Hstep q E C HE Hd). lia.
Qed.

(** [a + (b - a) * u] in the format lies between [a] and [b] whenever the
    difference is finite and [u] is in [0, 1). *)
Theorem SF_uniform_between a b u :
  valid a = true -> valid b = true -> valid u = true ->
  valid (SFsub prec emax b a) = true ->
  valid (SFmul prec emax (SFsub prec emax b a) u) = true ->
  SFfinite (SFsub prec emax b a) = true -> SFfinite u = true -> 0 <= Fv u < 2 ^ (- G) ->
  let r := SFadd prec emax a (SFmul prec emax (SFsub prec emax b a) u) in
  SFfinite r = true /\ Z.min (Fv a) (Fv b) <= Fv r <= Z.max (Fv a) (Fv b).
Proof.
  intros Va Vb Vu Vd Vp Fd Fu Hu r.
  destruct (SFsub_fin_inv _ _ Fd) as (Fb & Fa).
  destruct (scaled_difference_between a b u Va Vb Vu Vd Fd Fu Hu) as (Fp & Hpos & Hneg).
  destruct (Z.le_gt_cases (Fv a) (Fv b)) as [Hle|Hgt].
  - destruct (SFadd_sandwich a _ a b Va Vp Fa Fp Va Vb ltac:(lia)) as (Fr & Hr).
    split; [assumption |]. fold r in Hr. lia.
  - destruct (SFadd_sandwich a _ b a Va Vp Fa Fp Vb Va ltac:(lia)) as (Fr & Hr).
    split; [assumption |]. fold r in Hr. lia.
Qed.

(** When the difference of two finite floats [a <= b] overflows, the result
    is a NaN or an infinity, and is not below [b]. *)
Lemma SF_uniform_overflow a b u :
  valid a = true -> valid b = true -> valid u = true ->
  SFfinite a = true -> SFfinite b = true -> SFfinite u = true ->
  Fv a <= Fv b -> 0 <= Fv u ->
  SFfinite (SFsub prec emax b a) = false ->
  SFleb (SFadd prec emax a (SFmul prec emax (SFsub prec emax b a) u)) b = false.
Proof.
  intros Va Vb Vu Fa Fb Fu Hab Hu Hd.
  rewrite SFsub_as_add in *.
  assert (Hinf : SFadd prec emax b (SFopp a) = S754_infinity false).
  { destruct (SFadd_spec b (SFopp a)) as [(HF & _)|[(HT & HR)|(HT & HR)]];
      rewrite ?SFopp_valid, ?SFopp_fin; try assumption.
    - rewrite HF in Hd. discriminate.
    - apply rounds_inv in HR.
      destruct HR as (m & e & n & _ & _ & _ & _ & [(Hi & _)|(HF & _)]);
        [assumption | rewrite HF in Hd; discriminate].
    - rewrite SFopp_Fv in HT. lia. }
  rewrite Hinf.
  destruct u as [su|su| |su mu eu]; try discriminate.
  - destruct a as [sa|sa| |sa ma ea], b as [sb|sb| |sb mb eb]; try discriminate; reflexivity.
  - assert (su = false) as ->.
    { apply valid_canon in Vu. destruct Vu as (C & _). pose proof (canon_pos _ _ C).
      destruct su; [cbn [SFunits cond_Zopp] in Hu; lia | reflexivity]. }
    destruct a as [sa|sa| |sa ma ea], b as [sb|sb| |sb mb eb]; try discriminate; reflexivity.
Qed.

End Ops.

Section Binary64.

Local Abbreviation prec := FloatOps.prec.
Local Abbreviation emax := FloatOps.emax.

Lemma prec_gt_1 : 1 < prec.
Proof. reflexivity. Qed.

Lemma prec_lt_emax : prec < emax.
Proof. reflexivity. Qed.

Lemma SFeqb_Fv x y :
  SpecFloat.valid_binary prec emax x = true -> SpecFloat.valid_binary prec emax y = true ->
  SFfinite x = true -> SFfinite y = true ->
  SFeqb x y = (SFunits prec emax x =? SFunits prec emax y).
Proof.
  intros. unfold SFeqb.
  rewrite (SFcompare_Fv prec emax prec_gt_1 prec_lt_emax) by assumption.
  destruct (Z.compare_spec (SFunits prec emax x) (SFunits prec emax y));
    destruct (Z.eqb_spec (SFunits prec emax x) (SFunits prec emax y)); reflexivity || lia.
Qed.

(** [is_finite] of a primitive float, on its specification float. *)
Lemma is_finite_spec x : is_finite x = SFfinite (Prim2SF x).
Proof.
  unfold is_finite, is_nan, is_infinity.
  rewrite !FloatAxioms.eqb_spec, abs_spec.
  replace (Prim2SF infinity) with (S754_infinity false) by (vm_compute; reflexivity).
  destruct (Prim2SF x) as [s|s| |s m e]; try reflexivity.
  - destruct s; reflexivity.
  - unfold SFeqb. cbn [SFabs SFcompare SFfinite].
    destruct s; rewrite Z.compare_refl, Pos.compare_cont_refl; reflexivity.
Qed.

(** A primitive float in [[0, 1)] is finite, of a value below one. *)
Lemma unit_interval_spec u :
  (0 <=? u)%float = true -> (u <? 1)%float = true ->
  SFfinite (Prim2SF u) = true /\ 0 <= SFunits prec emax (Prim2SF u) < 2 ^ (- unit_exp prec emax).
Proof.
  intros H0 H1. rewrite leb_spec in H0. rewrite ltb_spec in H1.
  pose proof (Prim2SF_valid u) as Vu.
  pose proof (Prim2SF_valid 0%float) as V0.
  pose proof (Prim2SF_valid 1%float) as V1.
  assert (Fu : SFfinite (Prim2SF u) = true).
  { replace (Prim2SF 0%float) with (S754_zero false) in H0 by (vm_compute; reflexivity).
    replace (Prim2SF 1%float) with (S754_finite false 4503599627370496 (-52)) in H1
      by (vm_compute; reflexivity).
    destruct (Prim2SF u) as [s|s| |s m e]; try reflexivity; try discriminate.
    destruct s; discriminate. }
  split; [assumption |].
  rewrite (SFleb_Fv prec emax prec_gt_1 prec_lt_emax) in H0 by (assumption || reflexivity).
  rewrite (SFltb_Fv prec emax prec_gt_1 prec_lt_emax) in H1 by (assumption || reflexivity).
  apply Z.leb_le in H0. apply Z.ltb_lt in H1.
  replace (SFunits prec emax (Prim2SF 0%float)) with 0 in H0 by (vm_compute; reflexivity).
  replace (SFunits prec emax (Prim2SF 1%float)) with (2 ^ (- unit_exp prec emax)) in H1
    by (vm_compute; reflexivity).
  lia.
Qed.

(** In binary64, [a + (b - a) * u] lies between [a] and [b] whenever
    [b - a] is finite and [u] is in [[0, 1)]. *)
Theorem uniform_between_floats (a b u : float) :
  is_finite (b - a) = true -> (0 <=? u)%float = true -> (u <? 1)%float = true ->
  is_finite (a + (b - a) * u) = true /\
  ((a <=? b)%float = true ->
     (a <=? a + (b - a) * u)%float = true /\ (a + (b - a) * u <=? b)%float = true) /\
  ((b <=? a)%float = true ->
     (b <=? a + (b - a) * u)%float = true /\ (a + (b - a) * u <=? a)%float = true) /\
  ((b =? a)%float = true -> (a + (b - a) * u =? a)%float = true).
Proof.
  intros Hd H0 H1.
  destruct (unit_interval_spec u H0 H1) as (Fu & Hu).
  rewrite is_finite_spec in Hd |- *.
  rewrite !FloatAxioms.eqb_spec, !leb_spec, !add_spec, !mul_spec, !sub_spec in *.
  unfold SF64add, SF64mul, SF64sub in *.
  pose proof (Prim2SF_valid a) as Va. pose proof (Prim2SF_valid b) as Vb.
  pose proof (Prim2SF_valid u) as Vu.
  pose proof (Prim2SF_valid (b - a)) as Vd. rewrite sub_spec in Vd.
  pose proof (Prim2SF_valid ((b - a) * u)) as Vp. rewrite mul_spec, sub_spec in Vp.
  pose proof (Prim2SF_valid (a + (b - a) * u)) as Vr.
  rewrite add_spec, mul_spec, sub_spec in Vr.
  unfold SF64add, SF64mul, SF64sub in *.
  destruct (SFsub_fin_inv prec emax _ _ Hd) as (Fb & Fa).
  destruct (SF_uniform_between prec emax prec_gt_1 prec_lt_emax
              (Prim2SF a) (Prim2SF b) (Prim2SF u) Va Vb Vu Vd Vp Hd Fu Hu) as (Fr & Hr).
  split; [assumption |].
  rewrite !(SFleb_Fv prec emax prec_gt_1 prec_lt_emax) by assumption.
  rewrite !SFeqb_Fv by assumption.
  split; [| split]; intros Hab.
  - apply Z.leb_le in Hab. split; apply Z.leb_le; lia.
  - apply Z.leb_le in Hab. split; apply Z.leb_le; lia.
  - apply Z.eqb_eq in Hab. apply Z.eqb_eq. lia.
Qed.

(** In binary64, when the difference of two finite numbers [a <= b]
    overflows, [a + (b - a) * u] is not below [b], whichever [u >= 0]. *)
Theorem uniform_overflow_floats (a b u : float) :
  is_finite a = true -> is_finite b = true -> (a <=? b)%float = true ->
  is_finite (b - a) = false ->
  (0 <=? u)%float = true -> (u <? 1)%float = true ->
  (a + (b - a) * u <=? b)%float = false.
Proof.
  intros Fa Fb Hab Hd H0 H1.
  destruct (unit_interval_spec u H0 H1) as (Fu & Hu).
  rewrite is_finite_spec in Fa, Fb, Hd.
  rewrite !leb_spec, !add_spec, !mul_spec, !sub_spec in *.
  unfold SF64add, SF64mul, SF64sub in *.
  pose proof (Prim2SF_valid a) as Va. pose proof (Prim2SF_valid b) as Vb.
  pose proof (Prim2SF_valid u) as Vu.
  rewrite (SFleb_Fv prec emax prec_gt_1 prec_lt_emax) in Hab by assumption.
  apply Z.leb_le in Hab.
  apply (SF_uniform_overflow prec emax prec_gt_1 prec_lt_emax); try assumption; lia.
Qed.

End Binary64.

End Binary64Arithmetic.

(** C4 (as amended).  In binary64: when the base initialiser returns, the
    bounds are numbers with [lo <= hi] whose difference [hi - lo] is finite
    (it does not overflow), and the draw [u] is in [[0, 1)], the constructor
    returns an instance whose speed factor [lo + (hi - lo) * u], computed
    with rounding, lies in [[lo, hi]]. *)
Theorem speed_factor_within_bounds
    (Hh : Handles) (L : @Library binary64 Hh)
    (input_path : @Value binary64) (config : @Config binary64) (w : World)
    (b : Base) (x : Ext) (lo hi : float) :
  base_init [input_path; VDict config] (ext w) = (inr b, x) ->
  config !! "min_speed_factor" = Some (@VNum binary64 lo) ->
  config !! "max_speed_factor" = Some (@VNum binary64 hi) ->
  (0 <=? as_float (fst (random x)))%float = true -> (as_float (fst (random x)) <? 1)%float = true ->
  (lo <=? hi)%float = true ->
  is_finite (hi - lo) = true ->
  exists s w',
    SpeedAugmentor.__init__ input_path config w = (inr s, w') /\
    (lo <=? as_float (SpeedAugmentor.speed_factor s))%float = true /\
    (as_float (SpeedAugmentor.speed_factor s) <=? hi)%float = true.
Proof.
  intros Hb Hlo Hhi Hu0 Hu1 Hle Hfin.
  rewrite (speed_init_run _ _ _ _ _ _ _ Hb Hlo Hhi).
  eexists _, _. split; [reflexivity |].
  cbn [SpeedAugmentor.speed_factor nadd nmul nsub binary64].
  destruct (uniform_between_floats lo hi (as_float (fst (random x))) Hfin Hu0 Hu1) as (_ & Hin & _).
  exact (Hin Hle).
Qed.

(** The condition of C4 is the one the arithmetic forces: for finite
    bounds [lo <= hi] whose difference overflows, the constructor returns
    an instance whose speed factor is not below [hi], whichever the draw. *)
Lemma speed_factor_outside_bounds_on_overflow
    (Hh : Handles) (L : @Library binary64 Hh)
    (input_path : @Value binary64) (config : @Config binary64) (w : World)
    (b : Base) (x : Ext) (lo hi : float) :
  base_init [input_path; VDict config] (ext w) = (inr b, x) ->
  config !! "min_speed_factor" = Some (@VNum binary64 lo) ->
  config !! "max_speed_factor" = Some (@VNum binary64 hi) ->
  (0 <=? as_float (fst (random x)))%float = true -> (as_float (fst (random x)) <? 1)%float = true ->
  is_finite lo = true -> is_finite hi = true -> (lo <=? hi)%float = true ->
  is_finite (hi - lo) = false ->
  exists s w',
    SpeedAugmentor.__init__ input_path config w = (inr s, w') /\
    (as_float (SpeedAugmentor.speed_factor s) <=? hi)%float = false.
Proof.
  intros Hb Hlo Hhi Hu0 Hu1 Flo Fhi Hle Hover.
  rewrite (speed_init_run _ _ _ _ _ _ _ Hb Hlo Hhi).
  eexists _, _. split; [reflexivity |].
  cbn [SpeedAugmentor.speed_factor nadd nmul nsub binary64].
  apply (uniform_overflow_floats lo hi (as_float (fst (random x)))); assumption.
Qed.

(** ** What [transform] writes *)

Section TransformFrame.
Context `{L : Library}.

(** C8 (as amended).  [transform] of the speed augmentor does not write the
    loaded buffer: the waveform [data] and the rate [sr] are the same
    before and after; when it returns it has stored the sped-up segment in
    [augmented_audio], and when it raises the instance is as it was.
    [transform] of the adversarial augmentor, when it returns, has stored
    in [augmented_audio] the conversion of the waveform that
    [chunk_to_audio] joins from the loop's results over the chunks of the
    loaded audio; when it raises, [augmented_audio] is as it was. *)
Theorem transform_stores_segment_as_output :
  (forall (s : SpeedAugmentor.Self) (w : World),
      let r := SpeedAugmentor.transform (s, w) in
      data (SpeedAugmentor.base (fst (snd r))) = data (SpeedAugmentor.base s) /\
      sr (SpeedAugmentor.base (fst (snd r))) = sr (SpeedAugmentor.base s) /\
      match fst r with
      | inr _ =>
          exists a seg,
            SpeedAugmentor.audio_data s = Some a /\
            speedup a (SpeedAugmentor.speed_factor s) = inr seg /\
            augmented_audio (SpeedAugmentor.base (fst (snd r))) = Some seg
      | inl _ => fst (snd r) = s
      end) /\
  (forall (s : AdversarialNoiseAugmentor.Self) (w : World),
      let r := AdversarialNoiseAugmentor.transform (s, w) in
      match fst r with
      | inr _ =>
          exists audio adv_res w1 seg,
            data (AdversarialNoiseAugmentor.base s) = Some audio /\
            AdversarialNoiseAugmentor.attack_chunks
              (AdversarialNoiseAugmentor.adv_class s) (AdversarialNoiseAugmentor.y_true s)
              (fst (get_chunk (window (AdversarialNoiseAugmentor.artmodel s)) audio)) [] w =
              (inr adv_res, w1) /\
            librosa_to_pydub
              (chunk_to_audio adv_res
                 (snd (get_chunk (window (AdversarialNoiseAugmentor.artmodel s)) audio)))
              (sr (AdversarialNoiseAugmentor.base s)) = inr seg /\
            augmented_audio (AdversarialNoiseAugmentor.base (fst (snd r))) = Some seg
      | inl _ =>
          augmented_audio (AdversarialNoiseAugmentor.base (fst (snd r))) =
            augmented_audio (AdversarialNoiseAugmentor.base s)
      end).
Proof.
  split; intros s w r; subst r.
  - rewrite speed_transform_run.
    destruct (SpeedAugmentor.audio_data s) as [a|]; [| now cbn].
    destruct (speedup a (SpeedAugmentor.speed_factor s)) as [e|seg] eqn:Hs; cbn; auto.
    repeat split; auto. eauto.
  - pose proof (adv_transform_run s w) as Hrun.
    destruct (data (AdversarialNoiseAugmentor.base s)) as [audio|] eqn:Hd;
      [| now rewrite Hrun].
    destruct (AdversarialNoiseAugmentor.attack_chunks _ _ _ [] w) as [[e|adv_res] w'] eqn:Hloop;
      [now rewrite Hrun |].
    destruct (librosa_to_pydub _ _) as [e|seg] eqn:Hconv;
      rewrite Hrun; [reflexivity |].
    cbn. exists audio, adv_res, w', seg. auto.
Qed.

End TransformFrame.

(** * The code on explicit inputs *)

(** C1.  With the label [True], the loop calls [generate] with the label
    and then without it on every chunk, and what [transform] stores is the
    audio of the calls without the label: the stored output with a label is
    the one stored without a label, not the audio generated for the label. *)
Theorem labelled_result_is_overwritten :
  trace (snd (snd (toy_adv_transform (Some true)))) =
    [EvGenerate true; EvGenerate false; EvGenerate true; EvGenerate false] /\
  augmented_audio (AdversarialNoiseAugmentor.base (fst (snd (toy_adv_transform (Some true)))))
    = Some [1; 2; 3; 4; 5; 6]%Q /\
  augmented_audio (AdversarialNoiseAugmentor.base (fst (snd (toy_adv_transform None))))
    = Some [1; 2; 3; 4; 5; 6]%Q /\
  chunk_to_audio
    (map (fun chunk => hd [] (toy_generate exact half chunk (Some true)))
       (fst (@get_chunk exact 4 toy_audio)))
    (snd (@get_chunk exact 4 toy_audio))
    = [3 # 2; 5 # 2; 7 # 2; 9 # 2; 11 # 2; 13 # 2]%Q.
Proof. repeat split; reflexivity. Qed.



(** C3, the claim as stated fails: with an unsupported attack name and no
    ["config_path"], the constructor raises [KeyError], not the assertion. *)
Lemma adv_method_error_needs_adapter :
  cfg_unknown_attack_no_path !! "adv_method" = Some (VStr "CarliniWagner") /\
  py_in (@VStr exact "CarliniWagner") AdversarialNoiseAugmentor.SUPPORTED_ADV = false /\
  toy_adv_init cfg_unknown_attack_no_path None =
    (inl (KeyError "config_path"), toy_world_at exact [EvBaseInit; EvAssertModel] 0).
Proof. repeat split; reflexivity. Qed.

(** C3 on a [rawnet2] configuration with attack name ["CarliniWagner"]. *)
Lemma unsupported_adv_method_rejected_witness :
  fst (toy_adv_init cfg_unknown_attack None) =
    inl (AssertionError
           "adv_method must be one of ['ProjectedGradientDescent', 'FastGradientMethod', 'AutoProjectedGradientDescent']").
Proof.
  unfold toy_adv_init.
  refine (proj2 (@unsupported_adv_method_rejected exact (toy_handles exact) toyL
                   cfg_unknown_attack None (toy_world exact) (VStr "CarliniWagner") _ _)
            (toy_base exact) 0%nat "rawnet2" (VStr "pretrained/model.pth") (VStr "cpu")
            (VStr "configs/rawnet2.yaml") "ArtRawnet2" 1%nat "ArtRawnet2" 2%nat
            _ _ _ _ _ _ _ _);
    try reflexivity.
  cbn. auto.
Defined.

(** C9, the claim as stated fails: with model name ["lcnn"], an unsupported
    attack name and no ["config_path"], the constructor raises [KeyError]
    and no adapter was instantiated. *)
Lemma adapter_not_loaded_without_its_key :
  py_in (@VStr exact "lcnn") AdversarialNoiseAugmentor.SUPPORTED_CM = true /\
  py_in (@VStr exact "DeepFool") AdversarialNoiseAugmentor.SUPPORTED_ADV = false /\
  fst (toy_adv_init cfg_lcnn_no_path None) = inl (KeyError "config_path") /\
  filter is_new_adapter (trace (snd (toy_adv_init cfg_lcnn_no_path None))) = [].
Proof. repeat split; reflexivity. Qed.

(** C9 on a [rawnet2] configuration with attack name ["CarliniWagner"]. *)
Lemma adapter_loaded_before_adv_method_check_witness :
  (exists msg, fst (toy_adv_init cfg_unknown_attack None) = inl (AssertionError msg)) /\
  trace (snd (toy_adv_init cfg_unknown_attack None)) =
    [EvBaseInit; EvAssertModel; EvNewAdapter "ArtRawnet2"; EvLoadModel "ArtRawnet2";
     EvAssertAdv] /\
  ext (snd (toy_adv_init cfg_unknown_attack None)) = 2%nat.
Proof.
  unfold toy_adv_init.
  refine (@adapter_loaded_before_adv_method_check exact (toy_handles exact) toyL
            cfg_unknown_attack None (toy_world exact)
            (toy_base exact) 0%nat "rawnet2" (VStr "pretrained/model.pth") (VStr "cpu")
            (VStr "CarliniWagner") (VStr "configs/rawnet2.yaml")
            "ArtRawnet2" 1%nat "ArtRawnet2" 2%nat
            _ _ _ _ _ _ _ _ _ _);
    try reflexivity.
  cbn. auto.
Defined.



(** C4, the claim as stated fails in binary64: with the bounds at the two
    ends of the range, [max - min] overflows and the factor is infinite. *)
Lemma speed_factor_overflows_in_binary64 :
  cfg_extreme_bounds !! "min_speed_factor" = Some (@VNum binary64 (- float_max)%float) /\
  cfg_extreme_bounds !! "max_speed_factor" = Some (@VNum binary64 float_max) /\
  PrimFloat.leb (- float_max) float_max = true /\
  exists s w',
    toy_speed_init64 cfg_extreme_bounds = (inr s, w') /\
    SpeedAugmentor.speed_factor s = infinity /\
    PrimFloat.leb (SpeedAugmentor.speed_factor s) float_max = false.
Proof.
  repeat split; try reflexivity.
  eexists _, _. repeat split; reflexivity.
Qed.

(** C4 in binary64, with bounds 0.9 and 1.1 and the draw 0.5. *)
Lemma speed_factor_within_bounds_witness :
  exists s w',
    toy_speed_init64 cfg_speed64 = (inr s, w') /\
    (0x1.ccccccccccccdp-1 <=? as_float (SpeedAugmentor.speed_factor s))%float = true /\
    (as_float (SpeedAugmentor.speed_factor s) <=? 0x1.199999999999ap+0)%float = true.
Proof.
  unfold toy_speed_init64.
  refine (@speed_factor_within_bounds (toy_handles binary64) toyL64
            (@VStr binary64 "clip.wav") cfg_speed64 (toy_world binary64)
            (toy_base binary64) 0%nat
            0x1.ccccccccccccdp-1%float 0x1.199999999999ap+0%float _ _ _ _ _ _ _);
    reflexivity.
Defined.

(** C5 on six loaded samples and windows of four. *)
Lemma transform_reproduces_sample_count_witness :
  exists adv_res w',
    @AdversarialNoiseAugmentor.attack_chunks exact (toy_handles exact) toyL
      "FastGradientMethod" None (fst (@get_chunk exact 4 toy_audio)) [] (toy_world exact) =
      (inr adv_res, w') /\
    Forall2 (fun chunk out => length out = length chunk)
      (fst (@get_chunk exact 4 toy_audio)) adv_res /\
    length (chunk_to_audio adv_res (snd (@get_chunk exact 4 toy_audio))) = 6%nat /\
    toy_adv_transform None =
      match @librosa_to_pydub exact (toy_handles exact) toyL
              (chunk_to_audio adv_res (snd (@get_chunk exact 4 toy_audio))) 16000 with
      | inr seg =>
          (inr tt,
           (AdversarialNoiseAugmentor.set_base (set_augmented_audio seg) (toy_adv_self None),
            w'))
      | inl e => (inl e, (toy_adv_self None, w'))
      end.
Proof.
  unfold toy_adv_transform.
  refine (@transform_reproduces_sample_count exact (toy_handles exact) toyL
            (toy_adv_self None) (toy_world exact) toy_audio _ _).
  - reflexivity.
  - intros x y e _. exists (hd [] (toy_generate exact half x y)), [], (S e).
    destruct y; cbn; rewrite ?length_map; auto.
Defined.

(** C7 on the instance the constructor returns for bounds 0.9 and 1.1. *)
Lemma randomness_consumed_once_witness :
  fst (toy_speed_init cfg_speed) =
    inr {| SpeedAugmentor.base := toy_base exact;
           SpeedAugmentor.speed_factor := (2000 # 2000)%Q;
           SpeedAugmentor.audio_data := None |} /\
  (forall st,
      snd (snd (toy_speed_transform_at st)) = snd st /\
      SpeedAugmentor.speed_factor (fst (snd (toy_speed_transform_at st))) =
        SpeedAugmentor.speed_factor (fst st)) /\
  (forall st,
      toy_speed_transform_at (snd (toy_speed_transform_at st)) = toy_speed_transform_at st).
Proof.
  split; [reflexivity |]. unfold toy_speed_transform_at.
  refine (proj2 (@randomness_consumed_once_at_construction exact (toy_handles exact) toyL
                   (VStr "clip.wav") cfg_speed (toy_world exact)
                   {| SpeedAugmentor.base := toy_base exact;
                      SpeedAugmentor.speed_factor := (2000 # 2000)%Q;
                      SpeedAugmentor.audio_data := None |}
                   (toy_world_at exact [EvBaseInit; EvRandom] 1) _)).
  reflexivity.
Defined.

(** C8, the claim as stated fails: [transform] of the speed augmentor
    returns with a new segment in [augmented_audio] and the loaded
    waveform as it was. *)
Lemma transform_does_not_write_data :
  fst toy_speed_transform = inr tt /\
  data (SpeedAugmentor.base (fst (snd toy_speed_transform))) = Some toy_audio /\
  data (SpeedAugmentor.base toy_speed_self) = Some toy_audio /\
  augmented_audio (SpeedAugmentor.base (fst (snd toy_speed_transform))) =
    Some [3 # 2; 6 # 2; 9 # 2; 12 # 2; 15 # 2; 18 # 2]%Q.
Proof. repeat split; reflexivity. Qed.

(** On a supported configuration the constructor returns, after the adapter
    and the attack were instantiated in this order. *)
Example init_supported_returns :
  trace (snd (toy_adv_init
                (<["config_path" := VStr "configs/rawnet2.yaml"]>
                   (adv_config_of "rawnet2" "FastGradientMethod")) (Some true))) =
    [EvBaseInit; EvAssertModel; EvNewAdapter "ArtRawnet2"; EvLoadModel "ArtRawnet2";
     EvAssertAdv; EvNewAttack "FastGradientMethod"] /\
  (exists s, fst (toy_adv_init
                    (<["config_path" := VStr "configs/rawnet2.yaml"]>
                       (adv_config_of "rawnet2" "FastGradientMethod")) (Some true)) = inr s /\
             AdversarialNoiseAugmentor.y_true s = Some true).
Proof. split; [reflexivity | eexists; split; reflexivity]. Qed.

(** Six samples in windows of four: two chunks, the second filled with two
    samples of silence, and a remainder of two. *)
Example get_chunk_six_by_four :
  @get_chunk exact 4 toy_audio = ([[1; 2; 3; 4]; [5; 6; 0; 0]]%Q, 2%nat).
Proof. reflexivity. Qed.

(** A multiple of the window leaves a full last chunk, and no audio no
    chunk. *)
Example get_chunk_edges :
  @get_chunk exact 2 [1; 2; 3; 4]%Q = ([[1; 2]; [3; 4]]%Q, 2%nat) /\
  @get_chunk exact 2 [] = ([], 0%nat).
Proof. split; reflexivity. Qed.

(** * Further properties of the two files *)

(** ** The paths through the constructor of the adversarial augmentor *)

Section AdversarialInitPaths.
Context `{L : Library}.

Ltac run_model_branch Harg Hnew Hload :=
  match goal with
  | |- context [bind (AdversarialNoiseAugmentor.model_branch ?n ?c ?key ?cfg ?mn ?dev ?mp ?m) ?k ?w] =>
      first
        [ rewrite (bind_inr _ k w _ _
                     (model_branch_skip n c key cfg mn dev mp m w (eq_refl false)))
        | rewrite (bind_inr _ k w _ _
                     (model_branch_take n c key cfg mn dev mp m w _ _ _ _ _
                        (eq_refl true) Harg Hnew Hload)) ]
  end.

(** The constructor up to the second assertion, for a supported model
    name whose adapter loads: what is left to run, and in which world. *)
Lemma init_reaches_adv_check config y w b x name mp dev am arg a x1 a' x2 :
  base_init [VDict config] (ext w) = (inr b, x) ->
  config !! "model_name" = Some (VStr name) ->
  config !! "model_pretrained" = Some mp ->
  config !! "device" = Some dev ->
  config !! "adv_method" = Some am ->
  In name AdversarialNoiseAugmentor.SUPPORTED_CM ->
  config !! adapter_key name = Some arg ->
  new_adapter (adapter_class name) arg dev x = (inr a, x1) ->
  load_model a mp x1 = (inr a', x2) ->
  AdversarialNoiseAugmentor.__init__ config y w =
    (py_assert (py_in am AdversarialNoiseAugmentor.SUPPORTED_ADV)
       ("adv_method must be one of " +:+ py_str_list AdversarialNoiseAugmentor.SUPPORTED_ADV) ;;;
     class <- AdversarialNoiseAugmentor.globals am ;;
     adv_config <- getitem config "adv_config" ;;
     kwargs <- match adv_config with VDict d => ret d | _ => raise TypeError end ;;
     atk <- call (EvNewAttack class) (new_attack class (get_art a') kwargs) ;;
     ret {| AdversarialNoiseAugmentor.base := b;
            AdversarialNoiseAugmentor.model_name := VStr name;
            AdversarialNoiseAugmentor.model_pretrained := mp;
            AdversarialNoiseAugmentor.device := dev;
            AdversarialNoiseAugmentor.adv_method := am;
            AdversarialNoiseAugmentor.y_true := y;
            AdversarialNoiseAugmentor.artmodel := a';
            AdversarialNoiseAugmentor.adv_class := atk |})
      {| trace := trace w ++ [EvBaseInit; EvAssertModel;
                              EvNewAdapter (adapter_class name);
                              EvLoadModel (adapter_class name);
                              EvAssertAdv];
         ext := x2 |}.
Proof.
  intros Hb Hmn Hmp Hdev Ham Hname Harg Hnew Hload.
  unfold AdversarialNoiseAugmentor.__init__.
  run_call Hb. run_get Hmn. run_get Hmp. run_get Hdev. run_get Ham.
  run_log.
  cbn in Hname.
  destruct Hname as [<-|[<-|[<-|[<-|[]]]]];
    (run_assert (eq_refl true));
    adapter_names;
    do 4 run_model_branch Harg Hnew Hload;
    run_log;
    rewrite <- !app_assoc; reflexivity.
Qed.

Lemma globals_supported method w :
  In method AdversarialNoiseAugmentor.SUPPORTED_ADV ->
  py_in (VStr method) AdversarialNoiseAugmentor.SUPPORTED_ADV = true /\
  AdversarialNoiseAugmentor.globals (VStr method) w = (inr method, w).
Proof.
  intros Hin. cbn in Hin.
  destruct Hin as [<-|[<-|[<-|[]]]]; split; reflexivity.
Qed.

(** X1.  On a configuration with a supported model name and a supported
    attack name, when the keys are there and the library calls succeed, the
    constructor returns: one adapter was instantiated (the one the model
    name selects, with that adapter's own key) and loaded with
    [model_pretrained], then one attack of the named class was built from
    the loaded adapter's classifier and [adv_config]; the instance carries
    the configuration values, the label as given, that adapter and that
    attack. *)
Theorem init_returns config y w b x name mp dev method arg a x1 a' x2 kwargs atk x3 :
  base_init [VDict config] (ext w) = (inr b, x) ->
  config !! "model_name" = Some (VStr name) ->
  config !! "model_pretrained" = Some mp ->
  config !! "device" = Some dev ->
  config !! "adv_method" = Some (VStr method) ->
  In name AdversarialNoiseAugmentor.SUPPORTED_CM ->
  In method AdversarialNoiseAugmentor.SUPPORTED_ADV ->
  config !! adapter_key name = Some arg ->
  new_adapter (adapter_class name) arg dev x = (inr a, x1) ->
  load_model a mp x1 = (inr a', x2) ->
  config !! "adv_config" = Some (VDict kwargs) ->
  new_attack method (get_art a') kwargs x2 = (inr atk, x3) ->
  AdversarialNoiseAugmentor.__init__ config y w =
    (inr {| AdversarialNoiseAugmentor.base := b;
            AdversarialNoiseAugmentor.model_name := VStr name;
            AdversarialNoiseAugmentor.model_pretrained := mp;
            AdversarialNoiseAugmentor.device := dev;
            AdversarialNoiseAugmentor.adv_method := VStr method;
            AdversarialNoiseAugmentor.y_true := y;
            AdversarialNoiseAugmentor.artmodel := a';
            AdversarialNoiseAugmentor.adv_class := atk |},
     {| trace := trace w ++ [EvBaseInit; EvAssertModel;
                             EvNewAdapter (adapter_class name);
                             EvLoadModel (adapter_class name);
                             EvAssertAdv; EvNewAttack method];
        ext := x3 |}).
Proof.
  intros Hb Hmn Hmp Hdev Ham Hname Hmethod Harg Hnew Hload Hcfg Hatk.
  rewrite (init_reaches_adv_check config y w b x name mp dev (VStr method) arg a x1 a' x2)
    by assumption.
  destruct (globals_supported method
              {| trace := trace w ++ [EvBaseInit; EvAssertModel;
                                      EvNewAdapter (adapter_class name);
                                      EvLoadModel (adapter_class name); EvAssertAdv];
                 ext := x2 |} Hmethod) as (Hin & Hglobals).
  run_assert Hin.
  rewrite (bind_inr _ _ _ _ _ Hglobals).
  run_get Hcfg.
  rewrite (bind_inr _ _ _ _ _ (eq_refl : ret kwargs _ = (inr kwargs, _))).
  run_call Hatk.
  cbn [ret trace ext]. now rewrite <- !app_assoc.
Qed.

(** X2.  After the adapter was loaded and both names were accepted, a
    configuration without ["adv_config"] raises [KeyError], and one whose
    ["adv_config"] is not a mapping raises [TypeError]; in both cases the
    adapter's side effects have happened and no attack was instantiated. *)
Theorem init_adv_config_errors config y w b x name mp dev method arg a x1 a' x2 :
  base_init [VDict config] (ext w) = (inr b, x) ->
  config !! "model_name" = Some (VStr name) ->
  config !! "model_pretrained" = Some mp ->
  config !! "device" = Some dev ->
  config !! "adv_method" = Some (VStr method) ->
  In name AdversarialNoiseAugmentor.SUPPORTED_CM ->
  In method AdversarialNoiseAugmentor.SUPPORTED_ADV ->
  config !! adapter_key name = Some arg ->
  new_adapter (adapter_class name) arg dev x = (inr a, x1) ->
  load_model a mp x1 = (inr a', x2) ->
  let after_load :=
    {| trace := trace w ++ [EvBaseInit; EvAssertModel;
                            EvNewAdapter (adapter_class name);
                            EvLoadModel (adapter_class name); EvAssertAdv];
       ext := x2 |} in
  (config !! "adv_config" = None ->
   AdversarialNoiseAugmentor.__init__ config y w = (inl (KeyError "adv_config"), after_load)) /\
  (forall v, config !! "adv_config" = Some v ->
             (forall d, v <> VDict d) ->
             AdversarialNoiseAugmentor.__init__ config y w = (inl TypeError, after_load)).
Proof.
  intros Hb Hmn Hmp Hdev Ham Hname Hmethod Harg Hnew Hload after_load.
  rewrite (init_reaches_adv_check config y w b x name mp dev (VStr method) arg a x1 a' x2)
    by assumption.
  fold after_load.
  destruct (globals_supported method after_load Hmethod) as (Hin & Hglobals).
  run_assert Hin.
  rewrite (bind_inr _ _ _ _ _ Hglobals).
  split.
  - intros Hcfg. now run_get Hcfg.
  - intros v Hcfg Hnot. run_get Hcfg.
    destruct v as [| | |d]; try reflexivity.
    now destruct (Hnot d).
Qed.

(** X3.  An error of the adapter's constructor or of [load_model] leaves
    the constructor as it is, at that point: after a failed adapter
    constructor [load_model] is not called, and in neither case is the
    attack name looked at, so an unsupported [adv_method] goes unreported. *)
Theorem init_adapter_errors_propagate config y w b x name mp dev am arg e :
  base_init [VDict config] (ext w) = (inr b, x) ->
  config !! "model_name" = Some (VStr name) ->
  config !! "model_pretrained" = Some mp ->
  config !! "device" = Some dev ->
  config !! "adv_method" = Some am ->
  In name AdversarialNoiseAugmentor.SUPPORTED_CM ->
  config !! adapter_key name = Some arg ->
  (forall x1,
      new_adapter (adapter_class name) arg dev x = (inl e, x1) ->
      AdversarialNoiseAugmentor.__init__ config y w =
        (inl e,
         {| trace := trace w ++ [EvBaseInit; EvAssertModel;
                                 EvNewAdapter (adapter_class name)];
            ext := x1 |})) /\
  (forall a x1 x2,
      new_adapter (adapter_class name) arg dev x = (inr a, x1) ->
      load_model a mp x1 = (inl e, x2) ->
      AdversarialNoiseAugmentor.__init__ config y w =
        (inl e,
         {| trace := trace w ++ [EvBaseInit; EvAssertModel;
                                 EvNewAdapter (adapter_class name);
                                 EvLoadModel (adapter_class name)];
            ext := x2 |})).
Proof.
  intros Hb Hmn Hmp Hdev Ham Hname Harg.
  assert (Hprefix : forall r w',
    (forall m class key,
        class = adapter_class name -> key = adapter_key name ->
        AdversarialNoiseAugmentor.model_branch name class key config (VStr name) dev mp m
          {| trace := trace w ++ [EvBaseInit; EvAssertModel]; ext := x |} = (inl r, w')) ->
    AdversarialNoiseAugmentor.__init__ config y w = (inl r, w')).
  { intros r w' Hbranch.
    unfold AdversarialNoiseAugmentor.__init__.
    run_call Hb. run_get Hmn. run_get Hmp. run_get Hdev. run_get Ham.
    run_log. rewrite app_trace.
    cbn in Hname.
    destruct Hname as [<-|[<-|[<-|[<-|[]]]]];
      (run_assert (eq_refl true));
      repeat match goal with
        | |- context [bind (AdversarialNoiseAugmentor.model_branch ?n ?c ?key ?cfg ?mn ?dv ?p ?m) ?k ?w0] =>
            first
              [ rewrite (bind_inr _ k w0 _ _
                           (model_branch_skip n c key cfg mn dv p m w0 (eq_refl false)))
              | rewrite (bind_inl _ k w0 _ _ (Hbranch m c key eq_refl eq_refl)) ]
        end;
      reflexivity. }
  split.
  - intros x1 Hnew. apply Hprefix. intros m class key -> ->.
    unfold AdversarialNoiseAugmentor.model_branch, AdversarialNoiseAugmentor.load_adapter.
    assert (Heq : eq_str (VStr name) name = true) by (cbn; apply String.eqb_refl).
    rewrite Heq.
    rewrite (bind_inl _ _ _ e
               {| trace := trace w ++ [EvBaseInit; EvAssertModel;
                                       EvNewAdapter (adapter_class name)];
                  ext := x1 |}); [reflexivity |].
    run_get Harg. run_call Hnew. cbn [trace ext]. now rewrite <- app_assoc.
  - intros a x1 x2 Hnew Hload. apply Hprefix. intros m class key -> ->.
    unfold AdversarialNoiseAugmentor.model_branch, AdversarialNoiseAugmentor.load_adapter.
    assert (Heq : eq_str (VStr name) name = true) by (cbn; apply String.eqb_refl).
    rewrite Heq.
    rewrite (bind_inl _ _ _ e
               {| trace := trace w ++ [EvBaseInit; EvAssertModel;
                                       EvNewAdapter (adapter_class name);
                                       EvLoadModel (adapter_class name)];
                  ext := x2 |}); [reflexivity |].
    run_get Harg. run_call Hnew.
    match goal with
    | |- call ?ev ?f ?w0 = _ => rewrite (call_eq ev f w0 _ _ Hload)
    end.
    cbn [trace ext]. now rewrite <- !app_assoc.
Qed.

Lemma call_inv {A} ev (f : Ext -> Result A * Ext) w a w' :
  call ev f w = (inr a, w') ->
  exists x, f (ext w) = (inr a, x) /\ w' = {| trace := trace w ++ [ev]; ext := x |}.
Proof.
  unfold call. destruct (f (ext w)) as [[e|a0] x]; [discriminate |].
  intros E. injection E as -> <-. now exists x.
Qed.

Lemma getitem_inv {S} (d : Config) key v (s s' : S) :
  getitem d key s = (inr v, s') -> d !! key = Some v /\ s' = s.
Proof.
  unfold getitem. destruct (d !! key) as [v0|]; [| discriminate].
  intros E. injection E as -> <-. auto.
Qed.

Lemma py_assert_inv {S} cond msg (s s' : S) u :
  py_assert cond msg s = (inr u, s') -> cond = true /\ s' = s.
Proof.
  destruct cond; [| discriminate]. intros E. injection E as _ <-. auto.
Qed.

(** [in] on a list of strings holds for the strings of the list only. *)
Lemma py_in_inv (v : Value) names :
  py_in v names = true -> exists name, v = VStr name /\ In name names.
Proof.
  unfold py_in. intros Hex. apply existsb_exists in Hex as (name & Hin & Heq).
  destruct v as [| |t|]; try discriminate Heq.
  cbn in Heq. apply String.eqb_eq in Heq as ->. now exists name.
Qed.

Lemma model_branch_inv name class key config mn dev mp m w m' w' :
  AdversarialNoiseAugmentor.model_branch name class key config mn dev mp m w = (inr m', w') ->
  (eq_str mn name = false /\ m' = m /\ w' = w) \/
  (eq_str mn name = true /\
   exists arg a x1 a' x2,
     config !! key = Some arg /\
     new_adapter class arg dev (ext w) = (inr a, x1) /\
     load_model a mp x1 = (inr a', x2) /\
     m' = Some a' /\
     w' = {| trace := trace w ++ [EvNewAdapter class; EvLoadModel class]; ext := x2 |}).
Proof.
  unfold AdversarialNoiseAugmentor.model_branch, AdversarialNoiseAugmentor.load_adapter.
  destruct (eq_str mn name).
  - intros Hrun. right. split; [reflexivity |].
    apply bind_inv in Hrun as (a' & w1 & Hrun & Hret).
    injection Hret as <- <-.
    apply bind_inv in Hrun as (arg & w2 & Harg & Hrun).
    apply getitem_inv in Harg as (Harg & ->).
    apply bind_inv in Hrun as (a & w3 & Hnew & Hload).
    apply call_inv in Hnew as (x1 & Hnew & ->).
    apply call_inv in Hload as (x2 & Hload & ->).
    exists arg, a, x1, a', x2. cbn [trace ext] in *.
    repeat split; auto. now rewrite app_trace.
  - intros Hrun. left. injection Hrun as <- <-. auto.
Qed.

(** X4.  An instance exists only for supported names: when the constructor
    returns, the configuration's model name and attack name are strings of
    the two supported lists, the instance carries them, the other entries
    it read and the label it was given, and the construction instantiated
    exactly one adapter, loaded it once and then instantiated one attack. *)
Theorem init_returned_inv config y w s w' :
  AdversarialNoiseAugmentor.__init__ config y w = (inr s, w') ->
  exists name method,
    In name AdversarialNoiseAugmentor.SUPPORTED_CM /\
    In method AdversarialNoiseAugmentor.SUPPORTED_ADV /\
    config !! "model_name" = Some (VStr name) /\
    config !! "adv_method" = Some (VStr method) /\
    AdversarialNoiseAugmentor.model_name s = VStr name /\
    AdversarialNoiseAugmentor.adv_method s = VStr method /\
    config !! "model_pretrained" = Some (AdversarialNoiseAugmentor.model_pretrained s) /\
    config !! "device" = Some (AdversarialNoiseAugmentor.device s) /\
    AdversarialNoiseAugmentor.y_true s = y /\
    trace w' = trace w ++ [EvBaseInit; EvAssertModel;
                           EvNewAdapter (adapter_class name);
                           EvLoadModel (adapter_class name);
                           EvAssertAdv; EvNewAttack method].
Proof.
  intros Hrun. pose proof Hrun as Hrun0.
  unfold AdversarialNoiseAugmentor.__init__ in Hrun.
  apply bind_inv in Hrun as (b & w1 & Hb & Hrun).
  apply call_inv in Hb as (x & Hb & ->).
  apply bind_inv in Hrun as (mn & w1 & Hmn & Hrun). apply getitem_inv in Hmn as (Hmn & ->).
  apply bind_inv in Hrun as (mp & w1 & Hmp & Hrun). apply getitem_inv in Hmp as (Hmp & ->).
  apply bind_inv in Hrun as (dev & w1 & Hdev & Hrun). apply getitem_inv in Hdev as (Hdev & ->).
  apply bind_inv in Hrun as (am & w1 & Ham & Hrun). apply getitem_inv in Ham as (Ham & ->).
  apply bind_inv in Hrun as (u1 & w1 & Hlog & Hrun).
  rewrite log_eq in Hlog. injection Hlog as _ <-.
  apply bind_inv in Hrun as (u2 & w1 & Hassert & Hrun).
  apply py_assert_inv in Hassert as (Hin & ->).
  apply py_in_inv in Hin as (name & -> & Hname).
  apply bind_inv in Hrun as (m1 & w1 & Hm1 & Hrun).
  apply bind_inv in Hrun as (m2 & w2 & Hm2 & Hrun).
  apply bind_inv in Hrun as (m3 & w3 & Hm3 & Hrun).
  apply bind_inv in Hrun as (m4 & w4 & Hm4 & Hrun).
  apply bind_inv in Hrun as (u3 & w5 & Hlog & Hrun).
  rewrite log_eq in Hlog. injection Hlog as _ <-.
  apply bind_inv in Hrun as (u4 & w5 & Hassert & Hrun).
  apply py_assert_inv in Hassert as (Hin & ->).
  apply py_in_inv in Hin as (method & -> & Hmethod).
  apply bind_inv in Hrun as (class & w5 & Hglobals & Hrun).
  apply bind_inv in Hrun as (a' & w6 & Ha & Hrun).
  apply bind_inv in Hrun as (adv_config & w7 & Hcfg & Hrun).
  apply getitem_inv in Hcfg as (Hcfg & ->).
  apply bind_inv in Hrun as (kwargs & w7 & Hkw & Hrun).
  apply bind_inv in Hrun as (atk & w8 & Hatk & Hret).
  apply call_inv in Hatk as (x3 & Hatk & ->).
  destruct adv_config as [| | |d]; try discriminate Hkw. injection Hkw as -> ->.
  destruct m4 as [a4|]; [| discriminate Ha]. injection Ha as -> ->.
  destruct (globals_supported method
              {| trace := trace w4 ++ [EvAssertAdv]; ext := ext w4 |} Hmethod)
    as (_ & Hglobals').
  rewrite Hglobals' in Hglobals. injection Hglobals as <- <-.
  cbn [trace ext] in *.
  assert (Hbranches : exists arg a x1 x2,
    config !! adapter_key name = Some arg /\
    new_adapter (adapter_class name) arg dev x = (inr a, x1) /\
    load_model a mp x1 = (inr a', x2) /\ ext w4 = x2).
  { apply model_branch_inv in Hm1, Hm2, Hm3, Hm4.
    cbn in Hname.
    destruct Hname as [<-|[<-|[<-|[<-|[]]]]];
      destruct Hm1 as [(E1 & -> & ->)|(E1 & arg1 & b1 & y1 & c1 & z1 & K1 & N1 & L1 & -> & ->)];
      try discriminate E1;
      destruct Hm2 as [(E2 & -> & ->)|(E2 & arg2 & b2 & y2 & c2 & z2 & K2 & N2 & L2 & -> & ->)];
      try discriminate E2;
      destruct Hm3 as [(E3 & -> & ->)|(E3 & arg3 & b3 & y3 & c3 & z3 & K3 & N3 & L3 & -> & ->)];
      try discriminate E3;
      destruct Hm4 as [(E4 & E4' & ->)|(E4 & arg4 & b4 & y4 & c4 & z4 & K4 & N4 & L4 & E4' & ->)];
      try discriminate E4;
      injection E4' as ->;
      cbn [trace ext] in *;
      eexists _, _, _, _; repeat split; eassumption. }
  destruct Hbranches as (arg & a & x1 & x2 & Harg & Hnew & Hload & Hx2).
  rewrite Hx2 in Hatk.
  rewrite (init_returns config y w b x name mp dev method arg a x1 a' x2 kwargs atk x3)
    in Hrun0 by assumption.
  injection Hrun0 as <- <-.
  exists name, method. cbn. repeat split; auto.
Qed.

End AdversarialInitPaths.

(** ** The label and the constructor *)

Section AdversarialLabel.
Context `{L : Library}.

Lemma bind_map_outcome {S A B C} (f : B -> C) (c : M S A) (k1 : A -> M S C) (k2 : A -> M S B) s :
  (forall a s1, k1 a s1 = map_outcome f (k2 a s1)) ->
  bind c k1 s = map_outcome f (bind c k2 s).
Proof.
  intros Hk. unfold bind. destruct (c s) as [[e|a] s1]; [reflexivity | apply Hk].
Qed.

(** X5.  The label plays no part in the construction: with any label the
    constructor makes the calls, raises the errors and builds the adapter
    and the attack it does without one, and the instance differs in
    [y_true] only. *)
Theorem init_ignores_label config y w :
  AdversarialNoiseAugmentor.__init__ config y w =
    map_outcome (with_y_true y) (AdversarialNoiseAugmentor.__init__ config None w).
Proof.
  unfold AdversarialNoiseAugmentor.__init__.
  repeat (apply bind_map_outcome; intros).
  reflexivity.
Qed.

End AdversarialLabel.

(** ** The calls [transform] makes *)

Section AdversarialTransformCalls.
Context `{L : Library}.

Lemma generate_row0_trace atk x y w row w1 :
  AdversarialNoiseAugmentor.generate_row0 atk x y w = (inr row, w1) ->
  trace w1 = trace w ++ [EvGenerate (AdversarialNoiseAugmentor.labelled y)].
Proof.
  unfold AdversarialNoiseAugmentor.generate_row0. intros Hrun.
  apply bind_inv in Hrun as (rows & w2 & Hcall & Hrow).
  unfold call in Hcall. destruct (generate atk x y (ext w)) as [r e'].
  injection Hcall as _ <-.
  destruct rows; [discriminate Hrow | injection Hrow as _ <-]. reflexivity.
Qed.

(** A loop that returns made the calls of [generate_calls] on every chunk,
    in order, and returns one result per chunk. *)
Lemma attack_chunks_calls atk y chunks :
  forall acc w outs w',
    AdversarialNoiseAugmentor.attack_chunks atk y chunks acc w = (inr outs, w') ->
    trace w' = trace w ++ concat (map (fun _ => generate_calls y) chunks) /\
    length outs = length acc + length chunks.
Proof.
  induction chunks as [|chunk rest IH]; intros acc w outs w' Hrun.
  - injection Hrun as <- <-. cbn. rewrite app_nil_r. split; [reflexivity | lia].
  - cbn [AdversarialNoiseAugmentor.attack_chunks] in Hrun.
    apply bind_inv in Hrun as (u & w1 & Hfirst & Hrun).
    apply bind_inv in Hrun as (row & w2 & Hrow & Hrun).
    apply generate_row0_trace in Hrow.
    destruct (IH _ _ _ _ Hrun) as (Htrace & Hlen).
    assert (Hw1 : trace w1 = trace w ++ match y with
                                        | Some _ => [EvGenerate true]
                                        | None => []
                                        end).
    { destruct y as [l|].
      - apply bind_inv in Hfirst as (temp & w0 & Htemp & Hret).
        injection Hret as _ <-. now apply generate_row0_trace in Htemp.
      - injection Hfirst as _ <-. now rewrite app_nil_r. }
    split.
    + rewrite Htrace, Hrow, Hw1. cbn [map concat].
      destruct y; cbn; now rewrite <- !app_assoc.
    + rewrite Hlen, length_app. cbn. lia.
Qed.

(** X6.  Without a label, a [transform] that returns has called
    [generate] exactly once per chunk of the loaded audio, each time without
    a label, and made no other recorded call. *)
Theorem transform_generate_calls s w s' w' audio :
  data (AdversarialNoiseAugmentor.base s) = Some audio ->
  AdversarialNoiseAugmentor.y_true s = None ->
  AdversarialNoiseAugmentor.transform (s, w) = (inr tt, (s', w')) ->
  trace w' =
    trace w ++ repeat (EvGenerate false)
                 (length (fst (get_chunk (window (AdversarialNoiseAugmentor.artmodel s)) audio))).
Proof.
  intros Hdata Hlabel Hrun.
  pose proof (adv_transform_run s w) as Hshape. rewrite Hdata, Hlabel in Hshape.
  destruct (AdversarialNoiseAugmentor.attack_chunks _ _ _ [] w) as [[e|adv_res] w1] eqn:Hloop.
  - rewrite Hshape in Hrun. discriminate Hrun.
  - destruct (librosa_to_pydub _ _) as [e|seg]; rewrite Hshape in Hrun;
      [discriminate Hrun |].
    injection Hrun as _ <-.
    apply attack_chunks_calls in Hloop as (Htrace & _).
    rewrite Htrace. f_equal.
    generalize (fst (get_chunk (window (AdversarialNoiseAugmentor.artmodel s)) audio)).
    intros chunks. induction chunks as [|c cs IH]; [reflexivity |].
    cbn. now rewrite <- IH.
Qed.

(** X7.  [transform] does not read the output stored before: on an
    instance that already holds an augmented output it raises or returns
    as on the instance without it, leaves the world the same, and a
    returning [transform] leaves the same instance, so a second call
    starts again from the loaded audio and not from the first result. *)
Theorem transform_ignores_stored_output (s : AdversarialNoiseAugmentor.Self) (w : World)
    (seg : Segment) :
  let s0 := AdversarialNoiseAugmentor.set_base (set_augmented_audio seg) s in
  fst (AdversarialNoiseAugmentor.transform (s0, w)) =
    fst (AdversarialNoiseAugmentor.transform (s, w)) /\
  snd (snd (AdversarialNoiseAugmentor.transform (s0, w))) =
    snd (snd (AdversarialNoiseAugmentor.transform (s, w))) /\
  match fst (AdversarialNoiseAugmentor.transform (s, w)) with
  | inr _ =>
      fst (snd (AdversarialNoiseAugmentor.transform (s0, w))) =
        fst (snd (AdversarialNoiseAugmentor.transform (s, w)))
  | inl _ => fst (snd (AdversarialNoiseAugmentor.transform (s0, w))) = s0
  end.
Proof.
  intros s0.
  pose proof (adv_transform_run s w) as Hs.
  pose proof (adv_transform_run s0 w) as Hs0.
  subst s0. cbn [AdversarialNoiseAugmentor.set_base AdversarialNoiseAugmentor.base
                 AdversarialNoiseAugmentor.artmodel AdversarialNoiseAugmentor.adv_class
                 AdversarialNoiseAugmentor.y_true set_augmented_audio data sr] in Hs0.
  destruct (data (AdversarialNoiseAugmentor.base s)) as [audio|];
    [| rewrite Hs, Hs0; cbn; auto].
  destruct (AdversarialNoiseAugmentor.attack_chunks _ _ _ [] w) as [[e|adv_res] w1];
    [rewrite Hs, Hs0; cbn; auto |].
  destruct (librosa_to_pydub _ _) as [e|out]; rewrite Hs, Hs0; cbn; auto.
Qed.

End AdversarialTransformCalls.

(** ** The life cycle of the speed augmentor *)

Section SpeedLifeCycle.
Context `{L : Library}.

(** The outcomes of [load], by the outcome of each of its steps. *)
Lemma speed_load_run s w :
  SpeedAugmentor.load (s, w) =
    match base_load (SpeedAugmentor.base s) (ext w) with
    | (inl e, x) => (inl e, (s, {| trace := trace w ++ [EvBaseLoad]; ext := x |}))
    | (inr b, x) =>
        let s1 := SpeedAugmentor.set_base (fun _ => b) s in
        let w1 := {| trace := trace w ++ [EvBaseLoad]; ext := x |} in
        match data b with
        | None => (inl (LibraryError "librosa_to_pydub"), (s1, w1))
        | Some audio =>
            match librosa_to_pydub audio (sr b) with
            | inl e => (inl e, (s1, w1))
            | inr seg => (inr tt, (SpeedAugmentor.set_audio_data (Some seg) s1, w1))
            end
        end
    end.
Proof.
  unfold SpeedAugmentor.load.
  rewrite (bind_inr self _ (s, w) s (s, w) eq_refl).
  destruct (base_load (SpeedAugmentor.base s) (ext w)) as [[e|b] x] eqn:Hload.
  - now rewrite (bind_inl _ _ _ _ _ (on_world_eq _ s _ _ _ (call_eq _ _ _ _ _ Hload))).
  - rewrite (bind_inr _ _ _ _ _ (on_world_eq _ s _ _ _ (call_eq _ _ _ _ _ Hload))).
    unfold bind, set_self, modify, lift. cbn [fst snd].
    destruct (data b) as [audio|]; [| reflexivity].
    cbn. now destruct (librosa_to_pydub audio (sr b)).
Qed.

(** X8.  [transform] on an instance fresh from the constructor, before any
    [load], raises [AttributeError] ([audio_data] is still [None]) and
    changes nothing. *)
Theorem transform_before_load input_path config w s w' w1 :
  SpeedAugmentor.__init__ input_path config w = (inr s, w') ->
  SpeedAugmentor.transform (s, w1) = (inl AttributeError, (s, w1)).
Proof.
  intros Hrun.
  destruct (speed_init_inv _ _ _ _ _ Hrun) as (b & x & lo & hi & Hb & Hlo & Hhi).
  rewrite (speed_init_run _ _ _ _ _ _ _ Hb Hlo Hhi) in Hrun.
  injection Hrun as <- _.
  now rewrite speed_transform_run.
Qed.

(** X9.  [load] followed by [transform]: when the base loader returns a
    buffer and the conversion and the speed change succeed, [load] stores
    the converted segment without touching the speed factor, and
    [transform] then stores the segment sped up by the factor fixed at
    construction; the only recorded call is the base loader's. *)
Theorem load_then_transform s w b x audio seg out :
  base_load (SpeedAugmentor.base s) (ext w) = (inr b, x) ->
  data b = Some audio ->
  librosa_to_pydub audio (sr b) = inr seg ->
  speedup seg (SpeedAugmentor.speed_factor s) = inr out ->
  exists s1 w1,
    SpeedAugmentor.load (s, w) = (inr tt, (s1, w1)) /\
    SpeedAugmentor.base s1 = b /\
    SpeedAugmentor.speed_factor s1 = SpeedAugmentor.speed_factor s /\
    SpeedAugmentor.audio_data s1 = Some seg /\
    trace w1 = trace w ++ [EvBaseLoad] /\
    SpeedAugmentor.transform (s1, w1) =
      (inr tt, (SpeedAugmentor.set_base (set_augmented_audio out) s1, w1)).
Proof.
  intros Hload Hdata Hconv Hspeed.
  rewrite speed_load_run, Hload. cbn zeta. rewrite Hdata, Hconv.
  eexists _, _. split; [reflexivity |].
  cbn [SpeedAugmentor.set_audio_data SpeedAugmentor.set_base SpeedAugmentor.base
       SpeedAugmentor.speed_factor SpeedAugmentor.audio_data trace].
  repeat split; auto.
  rewrite speed_transform_run.
  cbn [SpeedAugmentor.audio_data SpeedAugmentor.speed_factor
       SpeedAugmentor.set_audio_data SpeedAugmentor.set_base].
  now rewrite Hspeed.
Qed.

(** X10.  [load] is not atomic: when the base loader returns and the
    conversion to a segment raises, the error goes through with the
    instance holding the newly loaded buffer and its old [audio_data]. *)
Theorem load_conversion_error s w b x audio e :
  base_load (SpeedAugmentor.base s) (ext w) = (inr b, x) ->
  data b = Some audio ->
  librosa_to_pydub audio (sr b) = inl e ->
  exists s1 w1,
    SpeedAugmentor.load (s, w) = (inl e, (s1, w1)) /\
    SpeedAugmentor.base s1 = b /\
    SpeedAugmentor.audio_data s1 = SpeedAugmentor.audio_data s /\
    SpeedAugmentor.speed_factor s1 = SpeedAugmentor.speed_factor s.
Proof.
  intros Hload Hdata Hconv.
  rewrite speed_load_run, Hload. cbn zeta. rewrite Hdata, Hconv.
  eexists _, _. split; [reflexivity |]. cbn. auto.
Qed.

(** X11.  A constructor that raises has made no draw: the generator is in
    the state the base initialiser left it in and no draw is recorded. *)
Theorem failed_init_makes_no_draw input_path config w e w' :
  SpeedAugmentor.__init__ input_path config w = (inl e, w') ->
  ext w' = snd (base_init [input_path; VDict config] (ext w)) /\
  trace w' = trace w ++ [EvBaseInit].
Proof.
  unfold SpeedAugmentor.__init__.
  destruct (base_init [input_path; VDict config] (ext w)) as [[e0|b] x] eqn:Hb;
    run_call Hb; [intros E; injection E as _ <-; auto |].
  destruct (config !! "min_speed_factor") as [lo|] eqn:Hlo; run_get Hlo;
    [| intros E; injection E as _ <-; auto].
  destruct (config !! "max_speed_factor") as [hi|] eqn:Hhi; run_get Hhi;
    [| intros E; injection E as _ <-; auto].
  destruct lo as [|lo| |], hi as [|hi| |];
    try (intros E; injection E as _ <-; now auto).
  rewrite (bind_inr _ _ _ (nadd lo (nmul (nsub hi lo) (fst (random x))))
             {| trace := (trace w ++ [EvBaseInit]) ++ [EvRandom]; ext := snd (random x) |}).
  - discriminate.
  - unfold random_uniform, bind, call, ret. cbn [ext trace].
    now destruct (random x).
Qed.

(** X12.  The errors of the constructor once the base initialiser has
    returned: a missing ["min_speed_factor"] is reported first, then a
    missing ["max_speed_factor"], then a bound that is not a number. *)
Theorem speed_init_errors input_path config w b x :
  base_init [input_path; VDict config] (ext w) = (inr b, x) ->
  (config !! "min_speed_factor" = None ->
   fst (SpeedAugmentor.__init__ input_path config w) = inl (KeyError "min_speed_factor")) /\
  (forall lo,
      config !! "min_speed_factor" = Some lo ->
      config !! "max_speed_factor" = None ->
      fst (SpeedAugmentor.__init__ input_path config w) = inl (KeyError "max_speed_factor")) /\
  (forall lo hi,
      config !! "min_speed_factor" = Some lo ->
      config !! "max_speed_factor" = Some hi ->
      (forall n, lo <> VNum n) \/ (forall n, hi <> VNum n) ->
      fst (SpeedAugmentor.__init__ input_path config w) = inl TypeError).
Proof.
  intros Hb. unfold SpeedAugmentor.__init__. repeat split.
  - intros Hlo. run_call Hb. now run_get Hlo.
  - intros lo Hlo Hhi. run_call Hb. run_get Hlo. now run_get Hhi.
  - intros lo hi Hlo Hhi Hnot. run_call Hb. run_get Hlo. run_get Hhi.
    destruct lo as [|lo| |], hi as [|hi| |]; try reflexivity.
    destruct Hnot as [Hnot|Hnot]; [destruct (Hnot lo) | destruct (Hnot hi)]; reflexivity.
Qed.

End SpeedLifeCycle.

(** X13.  The constructor does not check the order of the bounds: in
    binary64, with [hi <= lo] and a finite difference the factor lies
    between the two bounds as well, and with equal bounds it equals that
    bound. *)
Theorem speed_factor_with_reversed_bounds
    (Hh : Handles) (L : @Library binary64 Hh)
    (input_path : @Value binary64) (config : @Config binary64) (w : World)
    (b : Base) (x : Ext) (lo hi : float) :
  base_init [input_path; VDict config] (ext w) = (inr b, x) ->
  config !! "min_speed_factor" = Some (@VNum binary64 lo) ->
  config !! "max_speed_factor" = Some (@VNum binary64 hi) ->
  (0 <=? as_float (fst (random x)))%float = true -> (as_float (fst (random x)) <? 1)%float = true ->
  (hi <=? lo)%float = true ->
  is_finite (hi - lo) = true ->
  exists s w',
    SpeedAugmentor.__init__ input_path config w = (inr s, w') /\
    (hi <=? as_float (SpeedAugmentor.speed_factor s))%float = true /\
    (as_float (SpeedAugmentor.speed_factor s) <=? lo)%float = true /\
    ((hi =? lo)%float = true -> (as_float (SpeedAugmentor.speed_factor s) =? lo)%float = true).
Proof.
  intros Hb Hlo Hhi Hu0 Hu1 Hle Hfin.
  rewrite (speed_init_run _ _ _ _ _ _ _ Hb Hlo Hhi).
  eexists _, _. split; [reflexivity |].
  cbn [SpeedAugmentor.speed_factor nadd nmul nsub binary64].
  destruct (uniform_between_floats lo hi (as_float (fst (random x))) Hfin Hu0 Hu1)
    as (_ & _ & Hrev & Heq).
  destruct (Hrev Hle) as (H1 & H2). auto.
Qed.

(** * The further properties on explicit inputs *)

(** X1 on the supported [rawnet2] configuration with a label. *)
Lemma init_returns_witness :
  trace (snd (toy_adv_init cfg_supported (Some true))) =
    [EvBaseInit; EvAssertModel; EvNewAdapter "ArtRawnet2"; EvLoadModel "ArtRawnet2";
     EvAssertAdv; EvNewAttack "FastGradientMethod"] /\
  exists s, fst (toy_adv_init cfg_supported (Some true)) = inr s /\
            AdversarialNoiseAugmentor.y_true s = Some true /\
            AdversarialNoiseAugmentor.adv_class s = "FastGradientMethod".
Proof.
  unfold toy_adv_init.
  rewrite (@init_returns exact (toy_handles exact) toyL cfg_supported (Some true)
             (toy_world exact) (toy_base exact) 0%nat "rawnet2"
             (VStr "pretrained/model.pth") (VStr "cpu") "FastGradientMethod"
             (VStr "configs/rawnet2.yaml") "ArtRawnet2" 1%nat "ArtRawnet2" 2%nat
             ∅ "FastGradientMethod" 3%nat);
    try reflexivity; try (cbn; auto; fail).
  split; [reflexivity | eexists; repeat split].
Defined.

(** X2 on a supported configuration without ["adv_config"]. *)
Lemma init_adv_config_errors_witness :
  toy_adv_init cfg_no_adv_config None =
    (inl (KeyError "adv_config"),
     toy_world_at exact
       [EvBaseInit; EvAssertModel; EvNewAdapter "ArtRawnet2"; EvLoadModel "ArtRawnet2";
        EvAssertAdv] 2).
Proof.
  unfold toy_adv_init.
  refine (proj1 (@init_adv_config_errors exact (toy_handles exact) toyL cfg_no_adv_config None
                   (toy_world exact) (toy_base exact) 0%nat "rawnet2"
                   (VStr "pretrained/model.pth") (VStr "cpu") "FastGradientMethod"
                   (VStr "configs/rawnet2.yaml") "ArtRawnet2" 1%nat "ArtRawnet2" 2%nat
                   _ _ _ _ _ _ _ _ _ _) _);
    try reflexivity; cbn; auto.
Defined.

(** X3 on the supported configuration, with an adapter constructor that
    raises. *)
Lemma init_adapter_errors_propagate_witness :
  @AdversarialNoiseAugmentor.__init__ exact (toy_handles exact) toyL_no_adapter
    cfg_supported None (toy_world exact) =
    (inl (LibraryError "FileNotFoundError"),
     toy_world_at exact [EvBaseInit; EvAssertModel; EvNewAdapter "ArtRawnet2"] 1).
Proof.
  refine (proj1 (@init_adapter_errors_propagate exact (toy_handles exact) toyL_no_adapter
                   cfg_supported None (toy_world exact) (toy_base exact) 0%nat "rawnet2"
                   (VStr "pretrained/model.pth") (VStr "cpu") (VStr "FastGradientMethod")
                   (VStr "configs/rawnet2.yaml") (LibraryError "FileNotFoundError")
                   _ _ _ _ _ _ _) 1%nat _);
    try reflexivity; cbn; auto.
Defined.

(** X4 on the instance the constructor returns for the supported
    configuration. *)
Lemma init_returned_inv_witness :
  exists name method,
    In name AdversarialNoiseAugmentor.SUPPORTED_CM /\
    In method AdversarialNoiseAugmentor.SUPPORTED_ADV /\
    cfg_supported !! "model_name" = Some (VStr name) /\
    cfg_supported !! "adv_method" = Some (VStr method).
Proof.
  destruct (@init_returned_inv exact (toy_handles exact) toyL cfg_supported None
              (toy_world exact) toy_fresh_adv_self
              (toy_world_at exact
                 [EvBaseInit; EvAssertModel; EvNewAdapter "ArtRawnet2";
                  EvLoadModel "ArtRawnet2"; EvAssertAdv; EvNewAttack "FastGradientMethod"] 3))
    as (name & method & H1 & H2 & H3 & H4 & _).
  - vm_compute. reflexivity.
  - now exists name, method.
Defined.

(** X6 on six loaded samples in windows of four: two calls. *)
Lemma transform_generate_calls_witness :
  trace (snd (snd (toy_adv_transform None))) = [EvGenerate false; EvGenerate false].
Proof.
  unfold toy_adv_transform.
  refine (@transform_generate_calls exact (toy_handles exact) toyL
            (toy_adv_self None) (toy_world exact)
            (fst (snd (toy_adv_transform None))) (snd (snd (toy_adv_transform None)))
            toy_audio _ _ _);
    reflexivity.
Defined.

(** X8 on the instance the constructor returns for bounds 0.9 and 1.1. *)
Lemma transform_before_load_witness :
  toy_speed_transform_at (toy_fresh_speed_self, toy_world exact) =
    (inl AttributeError, (toy_fresh_speed_self, toy_world exact)).
Proof.
  unfold toy_speed_transform_at.
  refine (@transform_before_load exact (toy_handles exact) toyL (VStr "clip.wav") cfg_speed
            (toy_world exact) toy_fresh_speed_self
            (toy_world_at exact [EvBaseInit; EvRandom] 1) (toy_world exact) _).
  reflexivity.
Defined.

(** X9 on a loaded instance with factor 3/2. *)
Lemma load_then_transform_witness :
  exists s1 w1,
    @SpeedAugmentor.load exact (toy_handles exact) toyL (toy_speed_self, toy_world exact) =
      (inr tt, (s1, w1)) /\
    SpeedAugmentor.base s1 = toy_loaded_base /\
    SpeedAugmentor.speed_factor s1 = SpeedAugmentor.speed_factor toy_speed_self /\
    SpeedAugmentor.audio_data s1 = Some toy_audio /\
    trace w1 = [EvBaseLoad] /\
    toy_speed_transform_at (s1, w1) =
      (inr tt, (SpeedAugmentor.set_base (set_augmented_audio toy_sped_up) s1, w1)).
Proof.
  unfold toy_speed_transform_at.
  refine (@load_then_transform exact (toy_handles exact) toyL toy_speed_self (toy_world exact)
            toy_loaded_base 0%nat toy_audio toy_audio toy_sped_up _ _ _ _);
    reflexivity.
Defined.

(** X10 on a loaded instance, with a conversion that raises. *)
Lemma load_conversion_error_witness :
  exists s1 w1,
    @SpeedAugmentor.load exact (toy_handles exact) toyL_no_conversion
      (toy_speed_self, toy_world exact) =
      (inl (LibraryError "CouldntEncodeError"), (s1, w1)) /\
    SpeedAugmentor.base s1 = toy_loaded_base /\
    SpeedAugmentor.audio_data s1 = SpeedAugmentor.audio_data toy_speed_self /\
    SpeedAugmentor.speed_factor s1 = SpeedAugmentor.speed_factor toy_speed_self.
Proof.
  refine (@load_conversion_error exact (toy_handles exact) toyL_no_conversion
            toy_speed_self (toy_world exact)
            toy_loaded_base 0%nat toy_audio (LibraryError "CouldntEncodeError") _ _ _);
    reflexivity.
Defined.

(** X11 and X12 on the empty configuration. *)
Lemma failed_init_makes_no_draw_witness :
  ext (snd (toy_speed_init ∅)) = 0%nat /\
  trace (snd (toy_speed_init ∅)) = [EvBaseInit].
Proof.
  unfold toy_speed_init.
  refine (@failed_init_makes_no_draw exact (toy_handles exact) toyL (VStr "clip.wav") ∅
            (toy_world exact) (KeyError "min_speed_factor")
            (toy_world_at exact [EvBaseInit] 0) _).
  reflexivity.
Defined.

Lemma speed_init_errors_witness :
  fst (toy_speed_init ∅) = inl (KeyError "min_speed_factor").
Proof.
  unfold toy_speed_init.
  refine (proj1 (@speed_init_errors exact (toy_handles exact) toyL (VStr "clip.wav") ∅
                   (toy_world exact) (toy_base exact) 0%nat _) _);
    reflexivity.
Defined.

(** X13 with bounds 1.1 and 0.9 and the draw 0.5. *)
Lemma speed_factor_with_reversed_bounds_witness :
  exists s w',
    toy_speed_init64 cfg_speed_reversed64 = (inr s, w') /\
    (0x1.ccccccccccccdp-1 <=? as_float (SpeedAugmentor.speed_factor s))%float = true /\
    (as_float (SpeedAugmentor.speed_factor s) <=? 0x1.199999999999ap+0)%float = true /\
    ((0x1.ccccccccccccdp-1 =? 0x1.199999999999ap+0)%float = true ->
     (as_float (SpeedAugmentor.speed_factor s) =? 0x1.199999999999ap+0)%float = true).
Proof.
  unfold toy_speed_init64.
  refine (@speed_factor_with_reversed_bounds (toy_handles binary64) toyL64
            (@VStr binary64 "clip.wav") cfg_speed_reversed64 (toy_world binary64)
            (toy_base binary64) 0%nat
            0x1.199999999999ap+0%float 0x1.ccccccccccccdp-1%float _ _ _ _ _ _ _);
    reflexivity.
Defined.
